(** * Unfinished goroutines: reconstruction, filter and grouping

    A shallow embedding of [cmd/unfinished_goroutines/unfinished_goroutines.go]
    and the properties of its three phases: [events2gs] (lifecycle
    reconstruction from trace events), [unfinishedGs] (the filter) and
    [uniq] (grouping by fingerprint, ordered by group size).

    Goroutine records live behind pointers in the Go program
    ([map[uint64]*Goroutine], [[][]*Goroutine]), so the embedding keeps an
    explicit heap of records and maps of locations; the three functions
    are written in a small heap-and-panic monad. *)

From Stdlib Require Import ZArith String Ascii List Lia.
From stdpp Require Import gmap strings list fin_maps pretty sorting.

Local Open Scope string_scope.
Local Open Scope Z_scope.

(** ** Data model *)

(** Modelled from the spec: [trace.Frame] is declared in Go's
    [internal/trace], outside this repository. A frame has a function
    name, a file and a line; the program reads [Fn], [File] and [Line].
    The frames of a stack are never nil. *)
Record Frame := mkFrame {
  Fn : string;
  File : string;
  Line : Z
}.

(** [type Stack []*trace.Frame]. *)
Abbreviation Stack := (list Frame).

(** Modelled from the spec: [trace.Event] is declared in Go's
    [internal/trace], outside this repository. An event has a kind
    ([Type], a byte), a timestamp ([Ts], an int64), an owning goroutine
    identifier ([G], a uint64), a stack ([Stk]), arguments ([Args]) and
    an optional link to another event ([Link], a pointer that may be
    nil). [Args] is the fixed array [[3]uint64] of that package, so that
    reading [ev.Args[0]] cannot be out of range. *)
#[warnings="-register-all"]
Inductive Event : Type := mkEvent {
  Typ : Z;
  Ts : Z;
  G : Z;
  Stk : Stack;
  Args : Z * Z * Z;
  Link : option Event
}.

(** [ev.Args[0]]: the array has three cells, index 0 always exists. *)
Definition Args0 (ev : Event) : Z := (Args ev).1.1.

(** Modelled from the spec: [trace.EvGoCreate] and [trace.EvGoEnd], the
    creation and termination kinds the reconstruction dispatches on, are
    constants of [internal/trace]; their values are the keys of
    "EvGoCreate" and "EvGoEnd" in the [states] table below. *)
Definition EvGoCreate : Z := 13.
Definition EvGoEnd : Z := 15.

(** [var states = map[byte]string{...}]. *)
Definition states : gmap Z string := list_to_map [
  (0,  "EvNone");
  (1,  "EvBatch");
  (2,  "EvFrequency");
  (3,  "EvStack");
  (4,  "EvGomaxprocs");
  (5,  "EvProcStart");
  (6,  "EvProcStop");
  (7,  "EvGCStart");
  (8,  "EvGCDone");
  (9,  "EvGCScanStart");
  (10, "EvGCScanDone");
  (11, "EvGCSweepStart");
  (12, "EvGCSweepDone");
  (13, "EvGoCreate");
  (14, "EvGoStart");
  (15, "EvGoEnd");
  (16, "EvGoStop");
  (17, "EvGoSched");
  (18, "EvGoPreempt");
  (19, "EvGoSleep");
  (20, "EvGoBlock");
  (21, "EvGoUnblock");
  (22, "EvGoBlockSend");
  (23, "EvGoBlockRecv");
  (24, "EvGoBlockSelect");
  (25, "EvGoBlockSync");
  (26, "EvGoBlockCond");
  (27, "EvGoBlockNet");
  (28, "EvGoSysCall");
  (29, "EvGoSysExit");
  (30, "EvGoSysBlock");
  (31, "EvGoWaiting");
  (32, "EvGoInSyscall");
  (33, "EvHeapAlloc");
  (34, "EvNextGC");
  (35, "EvTimerGoroutine");
  (36, "EvFutileWakeup");
  (37, "EvCount")
]%Z.

(** [states[t]]: a Go map read yields the zero value, the empty string,
    for a key that is not in the map. *)
Definition state_name (t : Z) : string := default "" (states !! t).

(** [type Goroutine struct]. *)
Record Goroutine := mkGoroutine {
  ID : Z;
  ParentID : Z;
  parentStack : Stack;
  name : string;
  create : Z;
  destroy : Z;
  lastStack : Stack;
  lastState : string
}.

Definition set_ParentID (v : Z) (g : Goroutine) : Goroutine :=
  mkGoroutine (ID g) v (parentStack g) (name g) (create g) (destroy g)
              (lastStack g) (lastState g).
Definition set_parentStack (v : Stack) (g : Goroutine) : Goroutine :=
  mkGoroutine (ID g) (ParentID g) v (name g) (create g) (destroy g)
              (lastStack g) (lastState g).
Definition set_name (v : string) (g : Goroutine) : Goroutine :=
  mkGoroutine (ID g) (ParentID g) (parentStack g) v (create g) (destroy g)
              (lastStack g) (lastState g).
Definition set_destroy (v : Z) (g : Goroutine) : Goroutine :=
  mkGoroutine (ID g) (ParentID g) (parentStack g) (name g) (create g) v
              (lastStack g) (lastState g).
Definition set_lastStack (v : Stack) (g : Goroutine) : Goroutine :=
  mkGoroutine (ID g) (ParentID g) (parentStack g) (name g) (create g)
              (destroy g) v (lastState g).
Definition set_lastState (v : string) (g : Goroutine) : Goroutine :=
  mkGoroutine (ID g) (ParentID g) (parentStack g) (name g) (create g)
              (destroy g) (lastStack g) v.

(** [&Goroutine{ID: id, create: ts}]: the other fields are zero values. *)
Definition Goroutine_lit (id ts : Z) : Goroutine :=
  mkGoroutine id 0 [] "" ts 0 [] "".

(** [fmt.Sprintf("%s [%s:%d]", frame.Fn, frame.File, frame.Line)]. *)
Definition Frame_String (f : Frame) : string :=
  Fn f +:+ " [" +:+ File f +:+ ":" +:+ pretty (Line f) +:+ "]".

(** The loop of [func (s Stack) String() string]: [first] tells that the
    frame index is 0, where no newline is written before the frame. *)
Fixpoint Stack_String_from (first : bool) (s : Stack) : string :=
  match s with
  | [] => ""
  | frame :: s' =>
      (if first then "" else String "010" "") +:+ Frame_String frame
        +:+ Stack_String_from false s'
  end.

(** [func (s Stack) String() string]. *)
Definition Stack_String (s : Stack) : string := Stack_String_from true s.

(** ** MD5 ([crypto/md5], RFC 1321)

    [uniq] keys its groups by the hexadecimal MD5 digest of a string.
    Words are 32-bit integers kept in [Z], reduced after every addition
    and rotation. *)
Module MD5.

Definition w32 (x : Z) : Z := x mod 2 ^ 32.

Definition rotl (x c : Z) : Z :=
  w32 (Z.lor (Z.shiftl x c) (Z.shiftr x (32 - c))).

Definition not32 (x : Z) : Z := Z.lxor x 4294967295.

(** Per-round shift amounts. *)
Definition shifts : list Z :=
  [7; 12; 17; 22; 7; 12; 17; 22; 7; 12; 17; 22; 7; 12; 17; 22;
   5; 9; 14; 20; 5; 9; 14; 20; 5; 9; 14; 20; 5; 9; 14; 20;
   4; 11; 16; 23; 4; 11; 16; 23; 4; 11; 16; 23; 4; 11; 16; 23;
   6; 10; 15; 21; 6; 10; 15; 21; 6; 10; 15; 21; 6; 10; 15; 21].

(** [floor (2^32 * abs (sin (i + 1)))] for [i] from 0 to 63. *)
Definition sines : list Z :=
  [3614090360; 3905402710; 606105819; 3250441966;
   4118548399; 1200080426; 2821735955; 4249261313;
   1770035416; 2336552879; 4294925233; 2304563134;
   1804603682; 4254626195; 2792965006; 1236535329;
   4129170786; 3225465664; 643717713; 3921069994;
   3593408605; 38016083; 3634488961; 3889429448;
   568446438; 3275163606; 4107603335; 1163531501;
   2850285829; 4243563512; 1735328473; 2368359562;
   4294588738; 2272392833; 1839030562; 4259657740;
   2763975236; 1272893353; 4139469664; 3200236656;
   681279174; 3936430074; 3572445317; 76029189;
   3654602809; 3873151461; 530742520; 3299628645;
   4096336452; 1126891415; 2878612391; 4237533241;
   1700485571; 2399980690; 4293915773; 2240044497;
   1873313359; 4264355552; 2734768916; 1309151649;
   4149444226; 3174756917; 718787259; 3951481745].

(** A string as its bytes. *)
Fixpoint bytes_of (s : string) : list Z :=
  match s with
  | EmptyString => []
  | String c s' => Z.of_N (N_of_ascii c) :: bytes_of s'
  end.

(** The [n] low bytes of [x], least significant first. *)
Fixpoint le_bytes (n : nat) (x : Z) : list Z :=
  match n with
  | O => []
  | S n' => x mod 256 :: le_bytes n' (x / 256)
  end.

(** Padding: a 1 bit, zeros up to 56 modulo 64, the bit length on 8 bytes. *)
Definition pad (msg : list Z) : list Z :=
  let len := Z.of_nat (length msg) in
  let zeros := Z.to_nat ((55 - len) mod 64) in
  msg ++ [128] ++ replicate zeros 0 ++ le_bytes 8 ((8 * len) mod 2 ^ 64).

(** Little-endian 32-bit words of a byte sequence. *)
Fixpoint words_of (fuel : nat) (bs : list Z) : list Z :=
  match fuel, bs with
  | S fuel', b0 :: b1 :: b2 :: b3 :: bs' =>
      (b0 + 256 * b1 + 65536 * b2 + 16777216 * b3) :: words_of fuel' bs'
  | _, _ => []
  end.

(** The 64-byte blocks of a padded message, each as 16 words. *)
Fixpoint blocks_of (fuel : nat) (bs : list Z) : list (list Z) :=
  match fuel with
  | O => []
  | S fuel' =>
      match bs with
      | [] => []
      | _ => words_of 16 (take 64 bs) :: blocks_of fuel' (drop 64 bs)
      end
  end.

Definition round (block : list Z) (st : Z * Z * Z * Z) (i : Z)
  : Z * Z * Z * Z :=
  let '(a, b, c, d) := st in
  let '(f, g) :=
    if i <? 16 then (Z.lor (Z.land b c) (Z.land (not32 b) d), i)
    else if i <? 32 then
      (Z.lor (Z.land d b) (Z.land (not32 d) c), (5 * i + 1) mod 16)
    else if i <? 48 then (Z.lxor b (Z.lxor c d), (3 * i + 5) mod 16)
    else (Z.lxor c (Z.lor b (not32 d)), (7 * i) mod 16) in
  let k := default 0 (sines !! Z.to_nat i) in
  let s := default 0 (shifts !! Z.to_nat i) in
  let m := default 0 (block !! Z.to_nat g) in
  let f' := w32 (f + a + k + m) in
  (d, w32 (b + rotl f' s), b, c).

Definition compress (st : Z * Z * Z * Z) (block : list Z) : Z * Z * Z * Z :=
  let '(a0, b0, c0, d0) := st in
  let '(a, b, c, d) := fold_left (round block) (map Z.of_nat (seq 0 64)) st in
  (w32 (a0 + a), w32 (b0 + b), w32 (c0 + c), w32 (d0 + d)).

(** [md5.Sum]: the 16 bytes of the digest. *)
Definition sum (msg : list Z) : list Z :=
  let padded := pad msg in
  let '(a, b, c, d) :=
    fold_left compress (blocks_of (length padded) padded)
              (1732584193, 4023233417, 2562383102, 271733878) in
  le_bytes 4 a ++ le_bytes 4 b ++ le_bytes 4 c ++ le_bytes 4 d.

Definition hex_digit (n : Z) : ascii :=
  default "0"%char (list_ascii_of_string "0123456789abcdef" !! Z.to_nat n).

(** [fmt.Sprintf("%x", digest)]: two lower-case digits per byte. *)
Fixpoint hex (bs : list Z) : string :=
  match bs with
  | [] => ""
  | b :: bs' => String (hex_digit (b / 16)) (String (hex_digit (b mod 16)) (hex bs'))
  end.

(** The hexadecimal digest of the bytes written to the hash. *)
Definition hexdigest (s : string) : string := hex (sum (bytes_of s)).

End MD5.

(** ** Heap and panics

    A [*Goroutine] that is not nil is a location of the heap; a map read
    that may fail yields an [option loc], where [None] is the nil pointer.
    A computation either finishes with a value and a heap, or panics. *)

Abbreviation loc := positive.
Abbreviation Heap := (gmap positive Goroutine).

Inductive outcome (A : Type) : Type :=
| Done (a : A) (h : Heap)
| Panic.
Arguments Done {A} a h.
Arguments Panic {A}.

Definition M (A : Type) : Type := Heap -> outcome A.

Definition ret {A} (a : A) : M A := fun h => Done a h.

Definition bind {A B} (m : M A) (k : A -> M B) : M B :=
  fun h => match m h with
           | Done a h' => k a h'
           | Panic => Panic
           end.

Notation "x <- m ;; k" := (bind m (fun x => k))
  (at level 100, m at next level, right associativity).
Notation "m ;;; k" := (bind m (fun _ => k))
  (at level 100, right associativity).

(** [&Goroutine{...}]: a fresh cell. *)
Definition new (g : Goroutine) : M loc :=
  fun h => let l := fresh (dom h) in Done l (<[l := g]> h).

(** Reading through a pointer; nil panics. *)
Definition load (p : option loc) : M Goroutine :=
  fun h => match p with
           | Some l => match h !! l with
                       | Some g => Done g h
                       | None => Panic
                       end
           | None => Panic
           end.

(** Writing a field through a pointer, [p.f = v]; nil panics. *)
Definition assign (p : option loc) (set : Goroutine -> Goroutine) : M unit :=
  fun h => match p with
           | Some l => match h !! l with
                       | Some g => Done tt (<[l := set g]> h)
                       | None => Panic
                       end
           | None => Panic
           end.

(** A [for _, x := range xs] loop whose body updates the loop state [acc]. *)
Fixpoint for_range {A St} (body : St -> A -> M St) (acc : St) (xs : list A) : M St :=
  match xs with
  | [] => ret acc
  | x :: xs' => acc' <- body acc x ;; for_range body acc' xs'
  end.

(** The orders in which [for k, v := range m] may visit a Go map: every
    entry once, in an unspecified order. *)
Definition range_order {K V} `{Countable K} (m : gmap K V) (order : list (K * V)) : Prop :=
  order ≡ₚ map_to_list m.

(** ** Lifecycle reconstruction: [events2gs] *)

(** The [switch ev.Type] statement of the first loop of [events2gs]. *)
Definition events2gs_switch (goroutines : gmap Z loc) (ev : Event) : M (gmap Z loc) :=
  if Typ ev =? EvGoCreate then
    g <- new (Goroutine_lit (Args0 ev) (Ts ev)) ;;
    r <- load (Some g) ;;
    ret (<[ID r := g]> goroutines)
  else if Typ ev =? EvGoEnd then
    let g := goroutines !! G ev in
    assign g (set_destroy (Ts ev)) ;;;
    ret goroutines
  else ret goroutines.

(** The rest of the body of the first loop, after the [switch]. *)
Definition events2gs_observe (goroutines : gmap Z loc) (ev : Event) : M (gmap Z loc) :=
  match goroutines !! G ev with
  | None => ret goroutines
  | Some g =>
      assign (Some g) (set_lastState (state_name (Typ ev))) ;;;
      assign (Some g) (set_lastStack (Stk ev)) ;;;
      r <- load (Some g) ;;
      (if (0 <? length (Stk ev))%nat && bool_decide (name r = "") then
         match Stk ev !! 0%nat with
         | Some frame => assign (Some g) (set_name (Fn frame))
         | None => fun _ => Panic
         end
       else ret tt) ;;;
      ret goroutines
  end.

(** The body of the first loop of [events2gs]. *)
Definition events2gs_pass1 (goroutines : gmap Z loc) (ev : Event) : M (gmap Z loc) :=
  goroutines <- events2gs_switch goroutines ev ;;
  events2gs_observe goroutines ev.

(** The body of the second loop of [events2gs]. *)
Definition events2gs_pass2 (goroutines : gmap Z loc) (ev : Event) : M (gmap Z loc) :=
  if negb (Typ ev =? EvGoCreate) || bool_decide (Link ev = None) then
    ret goroutines
  else
    match Link ev with
    | None => fun _ => Panic
    | Some link =>
        match goroutines !! G link with
        | None => ret goroutines
        | Some _ =>
            let child := goroutines !! G link in
            assign child (set_ParentID (G ev)) ;;;
            assign child (set_parentStack (Stk ev)) ;;;
            ret goroutines
        end
    end.

(** [func events2gs(events []*trace.Event) map[uint64]*Goroutine]. *)
Definition events2gs (events : list Event) : M (gmap Z loc) :=
  goroutines <- for_range events2gs_pass1 ∅ events ;;
  for_range events2gs_pass2 goroutines events.

(** ** The unfinished filter: [unfinishedGs] *)

(** The body of the loop of [unfinishedGs]. *)
Definition unfinishedGs_body (unfinishedGs : gmap Z loc) (kv : Z * loc) : M (gmap Z loc) :=
  let '(id, g) := kv in
  r <- load (Some g) ;;
  if negb (destroy r =? 0) then ret unfinishedGs
  else ret (<[id := g]> unfinishedGs).

(** [unfinishedGs] when its loop visits the map in the order [order]. *)
Definition unfinishedGs_in (order : list (Z * loc)) : M (gmap Z loc) :=
  for_range unfinishedGs_body ∅ order.

(** [func unfinishedGs(gs map[uint64]*Goroutine) map[uint64]*Goroutine],
    visiting the map in the order of [map_to_list]. *)
Definition unfinishedGs (gs : gmap Z loc) : M (gmap Z loc) :=
  unfinishedGs_in (map_to_list gs).

(** ** The similarity grouper: [uniq] *)

(** The closure [hash] of [uniq]: the three strings are written to the
    digest one after the other. *)
Definition hash (g : option loc) : M string :=
  r <- load g ;;
  ret (MD5.hexdigest (name r +:+ lastState r +:+ Stack_String (lastStack r))).

(** The body of the first loop of [uniq]. Reading a missing key of
    [groupsMap] yields the nil slice. *)
Definition uniq_body (groupsMap : gmap string (list loc)) (g : loc)
  : M (gmap string (list loc)) :=
  id <- hash (Some g) ;;
  let groupsMap :=
    if bool_decide (groupsMap !! id = None) then <[id := []]> groupsMap
    else groupsMap in
  ret (<[id := (default [] (groupsMap !! id) ++ [g])%list]> groupsMap).

(** [func (b byLen) Less(i, j int) bool], on the two elements compared. *)
Definition byLen_Less {A} (bi bj : list A) : bool :=
  (length bj <? length bi)%nat.

(** What [sort.Sort] guarantees of the slice it leaves behind: the
    elements of [data] rearranged so that no element is [less] than one
    before it. *)
Definition sort_Sort_post {A} (less : A -> A -> bool) (data out : list A) : Prop :=
  out ≡ₚ data /\
  forall (i j : nat) x y, (i < j)%nat -> out !! i = Some x -> out !! j = Some y ->
                          less y x = false.

(** No element of the list is [less] than one before it. *)
Definition ordered {A} (less : A -> A -> bool) : list A -> Prop :=
  StronglySorted (fun x y => less y x = false).

(** A [sort.Sort] to run [uniq] with: insertion of each element before
    the first one it is [less] than. *)
Fixpoint sort_insert {A} (less : A -> A -> bool) (x : A) (l : list A) : list A :=
  match l with
  | [] => [x]
  | y :: l' => if less x y then x :: y :: l' else y :: sort_insert less x l'
  end.

Fixpoint sort_Sort {A} (less : A -> A -> bool) (data : list A) : list A :=
  match data with
  | [] => []
  | x :: data' => sort_insert less x (sort_Sort less data')
  end.

(** The runs of [uniq]: both loops visit their map in some order, and the
    sort leaves any arrangement [sort.Sort] allows. *)
Inductive uniq_run (gs : gmap Z loc) (h : Heap) : outcome (list (list loc)) -> Prop :=
| uniq_run_panic order :
    range_order gs order ->
    for_range uniq_body ∅ order.*2 h = Panic ->
    uniq_run gs h Panic
| uniq_run_done order groupsMap h' order' groupsList :
    range_order gs order ->
    for_range uniq_body ∅ order.*2 h = Done groupsMap h' ->
    range_order groupsMap order' ->
    sort_Sort_post byLen_Less order'.*2 groupsList ->
    uniq_run gs h (Done groupsList h').

(** [func uniq(gs map[uint64]*Goroutine) [][]*Goroutine], visiting both
    maps in the order of [map_to_list] and sorting by insertion. *)
Definition uniq (gs : gmap Z loc) : M (list (list loc)) :=
  groupsMap <- for_range uniq_body ∅ (map_to_list gs).*2 ;;
  ret (sort_Sort byLen_Less (map_to_list groupsMap).*2).

(** The three phases of [main], from the events to the groups. *)
Definition pipeline (events : list Event) : M (list (list loc)) :=
  gs <- events2gs events ;;
  unfinished <- unfinishedGs gs ;;
  uniq unfinished.

(** ** The mapping as its reader sees it

    [view gs h] is the mapping from identifiers to the records the
    pointers of [gs] lead to in the heap [h]. *)
Definition view (gs : gmap Z loc) (h : Heap) : gmap Z Goroutine :=
  omap (fun l => h !! l) gs.

(** Every pointer of the mapping leads to a record. *)
Definition allocated (gs : gmap Z loc) (h : Heap) : Prop :=
  map_Forall (fun _ l => is_Some (h !! l)) gs.

(** No record is shared by two identifiers. *)
Definition unshared (gs : gmap Z loc) : Prop :=
  forall g1 g2 l, gs !! g1 = Some l -> gs !! g2 = Some l -> g1 = g2.

(** ** The history of one goroutine

    What the two passes do to the record of the identifier [g], event by
    event. *)

(** The event creates the goroutine [g]. *)
Definition creates (g : Z) (ev : Event) : bool :=
  (Typ ev =? EvGoCreate) && (Args0 ev =? g).

(** The event is the termination of the goroutine [g]. *)
Definition ends (g : Z) (ev : Event) : bool :=
  (Typ ev =? EvGoEnd) && (G ev =? g).

(** The goroutine [g] owns the event. *)
Definition owns (g : Z) (ev : Event) : bool := G ev =? g.

(** The event is a creation event that carries a link to an event owned
    by [g]. *)
Definition links (g : Z) (ev : Event) : bool :=
  (Typ ev =? EvGoCreate) &&
  match Link ev with
  | Some link => G link =? g
  | None => false
  end.

(** The three assignments at the end of the body of the first loop. *)
Definition observe (ev : Event) (r : Goroutine) : Goroutine :=
  let r' := set_lastStack (Stk ev) (set_lastState (state_name (Typ ev)) r) in
  match Stk ev with
  | frame :: _ => if bool_decide (name r' = "") then set_name (Fn frame) r' else r'
  | [] => r'
  end.

(** The two assignments of the second loop. *)
Definition adopt (ev : Event) (r : Goroutine) : Goroutine :=
  set_parentStack (Stk ev) (set_ParentID (G ev) r).

Definition history1_step (g : Z) (o : option Goroutine) (ev : Event) : option Goroutine :=
  let o' := if creates g ev then Some (Goroutine_lit g (Ts ev))
            else if ends g ev then set_destroy (Ts ev) <$> o
            else o in
  if owns g ev then observe ev <$> o' else o'.

Definition history2_step (g : Z) (o : option Goroutine) (ev : Event) : option Goroutine :=
  if links g ev then adopt ev <$> o else o.

(** The record of [g] after both passes over [events], if it has one. *)
Definition history (g : Z) (events : list Event) : option Goroutine :=
  fold_left (history2_step g) events (fold_left (history1_step g) events None).

(** Every termination event of [events] is owned by a goroutine of
    [known] or by one that an earlier event of [events] created. *)
Fixpoint ends_known (known : gset Z) (events : list Event) : bool :=
  match events with
  | [] => true
  | ev :: events' =>
      if Typ ev =? EvGoCreate then ends_known ({[Args0 ev]} ∪ known) events'
      else if Typ ev =? EvGoEnd then
        bool_decide (G ev ∈ known) && ends_known known events'
      else ends_known known events'
  end.

(** Two goroutines are placed in the same group. *)
Definition same_group (groups : list (list loc)) (a b : loc) : Prop :=
  exists group, group ∈ groups /\ a ∈ group /\ b ∈ group.

(** The groups come by descending cardinality. *)
Definition descending (groups : list (list loc)) : Prop :=
  forall (i : nat) Gi Gj, groups !! i = Some Gi -> groups !! S i = Some Gj ->
                          (length Gj <= length Gi)%nat.

(** The fingerprint the grouper keys a record by. *)
Definition fingerprint (r : Goroutine) : string :=
  MD5.hexdigest (name r +:+ lastState r +:+ Stack_String (lastStack r)).

(** The view of the mapping after the [switch] of the first loop and
    after the rest of its body, and after the body of the second loop. *)
Definition view_switch (m : gmap Z Goroutine) (ev : Event) : gmap Z Goroutine :=
  if Typ ev =? EvGoCreate then
    <[Args0 ev := Goroutine_lit (Args0 ev) (Ts ev)]> m
  else if Typ ev =? EvGoEnd then
    match m !! G ev with
    | Some r => <[G ev := set_destroy (Ts ev) r]> m
    | None => m
    end
  else m.

Definition view_observe (m : gmap Z Goroutine) (ev : Event) : gmap Z Goroutine :=
  match m !! G ev with
  | Some r => <[G ev := observe ev r]> m
  | None => m
  end.


Definition view_adopt (m : gmap Z Goroutine) (ev : Event) : gmap Z Goroutine :=
  if Typ ev =? EvGoCreate then
    match Link ev with
    | Some link =>
        match m !! G link with
        | Some r => <[G link := adopt ev r]> m
        | None => m
        end
    | None => m
    end
  else m.

(** The event is owned by [g] and gives it its name: its stack is not
    empty and the function name of the innermost frame is not empty. *)
Definition gives_name (g : Z) (ev : Event) : bool :=
  owns g ev &&
  match Stk ev with
  | frame :: _ => negb (bool_decide (Fn frame = ""))
  | [] => false
  end.

(** Every termination event of [g] in [events] has a timestamp other
    than zero. *)
Definition ends_nonzero (g : Z) (events : list Event) : bool :=
  forallb (fun ev => negb (ends g ev) || negb (Ts ev =? 0)) events.

(** No event of [events] creates [g] after a termination event of [g]. *)
Fixpoint not_created_again (g : Z) (events : list Event) : bool :=
  match events with
  | [] => true
  | ev :: events' =>
      (negb (ends g ev) || negb (existsb (creates g) events'))
      && not_created_again g events'
  end.

(** A computation that only reads the heap: it hands back the heap it
    was given. *)
Definition readonly {A} (m : M A) : Prop :=
  forall h a h', m h = Done a h' -> h' = h.

(** The record behind a pointer has no termination time. *)
Definition unfinished (h : Heap) (l : loc) : Prop :=
  exists r, h !! l = Some r /\ destroy r = 0.

(** The record behind a pointer has the fingerprint [k]. *)
Definition keyed (h : Heap) (k : string) (l : loc) : Prop :=
  fingerprint <$> h !! l = Some k.

#[global] Instance keyed_dec h k l : Decision (keyed h k l).
Proof. unfold keyed. apply _. Defined.



(** The goroutine [g] has a creation event that it does not own, and owns
    no event after it. *)
Fixpoint never_scheduled (g : Z) (events : list Event) : bool :=
  match events with
  | [] => false
  | ev :: events' =>
      (creates g ev && negb (owns g ev) && negb (existsb (owns g) events'))
      || never_scheduled g events'
  end.

(** The first stack that is not empty among the events [g] owns. *)
Fixpoint first_stack (g : Z) (events : list Event) : option Stack :=
  match events with
  | [] => None
  | ev :: events' =>
      if owns g ev && (0 <? length (Stk ev))%nat then Some (Stk ev)
      else first_stack g events'
  end.

(** ** Sample traces *)

Definition run_main : Frame := mkFrame "main.run" "main.go" 12.
Definition recv_named : Frame := mkFrame "Recv" "f.go" 1.
Definition recv_unnamed : Frame := mkFrame "" "f.go" 1.

(** Goroutine 0 creates goroutine 1, which starts and blocks on a receive. *)
Definition trace_blocked : list Event :=
  [ mkEvent 13 0 0 [] (1, 0, 0) None;
    mkEvent 14 2 1 [run_main] (0, 0, 0) None;
    mkEvent 23 5 1 [run_main] (0, 0, 0) None ].

(** Goroutine 2 is created at time 1 and ends at time 2. *)
Definition trace_ended : list Event :=
  [ mkEvent 13 1 0 [] (2, 0, 0) None;
    mkEvent 15 2 2 [] (0, 0, 0) None ].

(** The termination of goroutine 99, which no event created. *)
Definition end_of_unknown : Event := mkEvent 15 5 99 [] (0, 0, 0) None.

(** Goroutine 1 is created and ends, both at time 0. *)
Definition trace_ended_at_zero : list Event :=
  [ mkEvent 13 0 0 [] (1, 0, 0) None;
    mkEvent 15 0 1 [] (0, 0, 0) None ].

(** An event of goroutine 7, which no event created. *)
Definition start_of_unknown : Event := mkEvent 14 3 7 [] (0, 0, 0) None.

(** Goroutine 5 creates goroutine 6; the creation event links to the
    first start of goroutine 6. *)
Definition start_of_6 : Event := mkEvent 14 4 6 [run_main] (0, 0, 0) None.
Definition creation_of_6 : Event :=
  mkEvent 13 1 5 [run_main] (6, 0, 0) (Some start_of_6).
Definition trace_linked : list Event :=
  [ mkEvent 13 0 0 [] (5, 0, 0) None; creation_of_6; start_of_6 ].

(** An event of goroutine 3. *)
Definition start_of_3 : Event := mkEvent 14 5 3 [] (0, 0, 0) None.

(** Goroutine 1 owns the event that creates it. *)
Definition creation_by_itself : Event := mkEvent 13 0 1 [] (1, 0, 0) None.

(** Goroutines 1 and 2 are created and own no event. *)
Definition trace_never_scheduled : list Event :=
  [ mkEvent 13 0 0 [run_main] (1, 0, 0) None;
    mkEvent 13 1 0 [run_main] (2, 0, 0) None ].

(** The first stack of goroutine 1 has a frame without a function name. *)
Definition trace_unnamed_frame : list Event :=
  [ mkEvent 13 0 0 [] (1, 0, 0) None;
    mkEvent 14 1 1 [recv_unnamed] (0, 0, 0) None;
    mkEvent 23 2 1 [run_main] (0, 0, 0) None ].

(** Goroutines 1 and 2 start in [main.run]; the first blocks in a
    function [Recv], the second blocks on a receive in a frame without a
    function name. *)
Definition trace_same_digest : list Event :=
  [ mkEvent 13 0 0 [] (1, 0, 0) None;
    mkEvent 13 1 0 [] (2, 0, 0) None;
    mkEvent 14 2 1 [run_main] (0, 0, 0) None;
    mkEvent 20 3 1 [recv_named] (0, 0, 0) None;
    mkEvent 14 4 2 [run_main] (0, 0, 0) None;
    mkEvent 23 5 2 [recv_unnamed] (0, 0, 0) None ].

(** The two records [trace_same_digest] ends with, and the heap and the
    mapping that hold them. *)
Definition blocked_in_Recv : Goroutine :=
  mkGoroutine 1 0 [] "main.run" 0 0 [recv_named] "EvGoBlock".
Definition blocked_on_recv : Goroutine :=
  mkGoroutine 2 0 [] "main.run" 1 0 [recv_unnamed] "EvGoBlockRecv".
Definition heap_same_digest : Heap :=
  <[2%positive := blocked_on_recv]> (<[1%positive := blocked_in_Recv]> ∅).
Definition gs_same_digest : gmap Z loc :=
  <[2 := 2%positive]> (<[1 := 1%positive]> ∅).

(** The records of [trace_same_digest] and a third one, fresh from its
    creation, with the heap and the mapping that hold them. *)
Definition heap_three : Heap := <[3%positive := Goroutine_lit 3 2]> heap_same_digest.
Definition gs_three : gmap Z loc := <[3 := 3%positive]> gs_same_digest.

(** ** The report: [Goroutine.String] and the loop of [main] *)

(** [strings.Replace(s, old, new, -1)] for a non-empty [old]: every
    non-overlapping instance of [old] in [s], from the left, becomes
    [new]. [skip] counts the characters of a replaced instance that are
    still to be passed over. *)
Fixpoint Replace_from (old new : string) (skip : nat) (s : string) : string :=
  match s with
  | EmptyString => EmptyString
  | String c s' =>
      match skip with
      | S skip' => Replace_from old new skip' s'
      | O =>
          if String.prefix old s then
            new +:+ Replace_from old new (String.length old - 1) s'
          else String c (Replace_from old new O s')
      end
  end.

Definition strings_Replace (s old new : string) : string :=
  Replace_from old new 0 s.

(** The newline and the tabulation, written "\n" and "\t" in the source. *)
Definition newline : string := String "010" "".
Definition tab : string := String "009" "".

(** [func (g Goroutine) String() string]. *)
Definition Goroutine_String (g : Goroutine) : string :=
  let indentedStack :=
    tab +:+ strings_Replace (Stack_String (lastStack g)) newline (newline +:+ tab) in
  name g +:+ " [" +:+ lastState g +:+ "]:" +:+ newline +:+ indentedStack.

(** The body of the loop of [main], with what was printed so far as the
    loop state: [fmt.Printf("%d %s\n\n", len(group), group[0])]. Reading
    [group[0]] of an empty group is out of range. *)
Definition main_body (printed : string) (group : list loc) : M string :=
  match group !! 0%nat with
  | None => fun _ => Panic
  | Some g =>
      r <- load (Some g) ;;
      ret (printed +:+ pretty (length group) +:+ " " +:+ Goroutine_String r
             +:+ newline +:+ newline)
  end.

(** The loop of [main] over the groups. *)
Definition main_print (grouped : list (list loc)) : M string :=
  for_range main_body "" grouped.

(** [main] from the parsed events on: the three phases and the report. *)
Definition main_report (events : list Event) : M string :=
  gs <- events2gs events ;;
  unfinished <- unfinishedGs gs ;;
  grouped <- uniq unfinished ;;
  main_print grouped.

(** The string has no newline in it. *)
Fixpoint no_newline (s : string) : bool :=
  match s with
  | EmptyString => true
  | String c s' => negb (Ascii.eqb c "010") && no_newline s'
  end.

(** ** [byLen] as a [sort.Interface] *)

(** [func (b byLen) Len() int]. *)
Definition byLen_Len (b : list (list loc)) : nat := length b.

(** [func (b byLen) Swap(i, j int)]: [b[i], b[j] = b[j], b[i]]; an index
    out of range panics. *)
Definition byLen_Swap (b : list (list loc)) (i j : nat) : option (list (list loc)) :=
  match b !! i, b !! j with
  | Some bi, Some bj => Some (<[j := bi]> (<[i := bj]> b))
  | _, _ => None
  end.

(** [func (b byLen) Less(i, j int) bool]: [len(b[i]) > len(b[j])]; an
    index out of range panics. *)
Definition byLen_Less_at (b : list (list loc)) (i j : nat) : option bool :=
  match b !! i, b !! j with
  | Some bi, Some bj => Some (byLen_Less bi bj)
  | _, _ => None
  end.

(** ** More on the histories *)

(** The event concerns the goroutine [g]: it creates it, is owned by it,
    or is a creation event that links to one of its events. *)
Definition concerns (g : Z) (ev : Event) : bool :=
  creates g ev || owns g ev || links g ev.

(** No cell of the heap [h0] is changed in [h], and no pointer of the
    mapping leads into [h0]. *)
Definition framed (h0 : Heap) (gs : gmap Z loc) (h : Heap) : Prop :=
  (forall l r, h0 !! l = Some r -> h !! l = Some r) /\
  (forall g l, gs !! g = Some l -> h0 !! l = None).

(** The trace [trace_blocked] followed by the creation and the end of
    goroutine 2. *)
Definition trace_mixed : list Event :=
  (trace_blocked ++ trace_ended)%list.

(** The same with a fourth record, of a goroutine that ended at time 7. *)
Definition heap_four : Heap :=
  <[4%positive := mkGoroutine 4 0 [] "main.run" 3 7 [run_main] "EvGoEnd"]> heap_three.
Definition gs_four : gmap Z loc := <[4 := 4%positive]> gs_three.

(** * Properties *)

(** ** The monad *)

Lemma bind_Done {A B} (m : M A) (k : A -> M B) h a h' :
  m h = Done a h' -> bind m k h = k a h'.
Proof. unfold bind. intros ->. reflexivity. Qed.

Lemma bind_Panic {A B} (m : M A) (k : A -> M B) h :
  m h = Panic -> bind m k h = Panic.
Proof. unfold bind. intros ->. reflexivity. Qed.

Lemma bind_inv_Done {A B} (m : M A) (k : A -> M B) h b h'' :
  bind m k h = Done b h'' -> exists a h', m h = Done a h' /\ k a h' = Done b h''.
Proof. unfold bind. destruct (m h) as [a h'|]; [eauto | discriminate]. Qed.

Lemma load_Some l h r : h !! l = Some r -> load (Some l) h = Done r h.
Proof. unfold load. intros ->. reflexivity. Qed.

Lemma assign_Some l f h r :
  h !! l = Some r -> assign (Some l) f h = Done tt (<[l := f r]> h).
Proof. unfold assign. intros ->. reflexivity. Qed.

Lemma for_range_app {A St} (body : St -> A -> M St) acc xs ys h :
  for_range body acc (xs ++ ys) h =
  bind (for_range body acc xs) (fun acc' => for_range body acc' ys) h.
Proof.
  revert acc h. induction xs as [|x xs IH]; intros acc h; simpl.
  - reflexivity.
  - unfold bind. destruct (body acc x h) as [acc' h'|]; [|reflexivity].
    rewrite IH. reflexivity.
Qed.

(** ** The view of a mapping *)

Lemma view_lookup gs h g : view gs h !! g = gs !! g ≫= (fun l => h !! l).
Proof. unfold view. apply lookup_omap. Qed.

Lemma view_lookup_Some gs h g l r :
  gs !! g = Some l -> h !! l = Some r -> view gs h !! g = Some r.
Proof. intros Hg Hl. rewrite view_lookup, Hg. exact Hl. Qed.

Lemma view_dom gs h : allocated gs h -> dom (view gs h) = dom gs.
Proof.
  intros Ha. apply set_eq. intros g. rewrite !elem_of_dom, view_lookup.
  destruct (gs !! g) as [l|] eqn:Hg; simpl.
  - split; [eauto | intros _; eapply Ha; eauto].
  - split; intros [? ?]; discriminate.
Qed.

Lemma view_None gs h g : allocated gs h -> view gs h !! g = None <-> gs !! g = None.
Proof.
  intros Ha. rewrite <- !not_elem_of_dom, view_dom by done. reflexivity.
Qed.

(** Writing a record through the pointer of [g] changes the view at [g] only. *)
Lemma view_write gs h g l r :
  unshared gs -> gs !! g = Some l ->
  view gs (<[l := r]> h) = <[g := r]> (view gs h).
Proof.
  intros Hu Hg. apply map_eq. intros g'. rewrite view_lookup.
  destruct (decide (g' = g)) as [->|Hne].
  - rewrite Hg, lookup_insert_eq. simpl. apply lookup_insert_eq.
  - rewrite lookup_insert_ne by done. rewrite view_lookup.
    destruct (gs !! g') as [l'|] eqn:Hg'; simpl; [|done].
    rewrite lookup_insert_ne; [done|]. intros ->. apply Hne. eauto.
Qed.

Lemma allocated_write gs h l r : allocated gs h -> allocated gs (<[l := r]> h).
Proof.
  intros Ha g l' Hg. destruct (decide (l' = l)) as [->|Hne].
  - rewrite lookup_insert_eq. eauto.
  - rewrite lookup_insert_ne by done. eauto.
Qed.

(** Registering a fresh record under [g]. *)
Lemma view_new gs h g r :
  allocated gs h ->
  view (<[g := fresh (dom h)]> gs) (<[fresh (dom h) := r]> h) = <[g := r]> (view gs h).
Proof.
  intros Ha. apply map_eq. intros g'. rewrite view_lookup.
  destruct (decide (g' = g)) as [->|Hne].
  - rewrite !lookup_insert_eq. simpl. apply lookup_insert_eq.
  - rewrite !lookup_insert_ne by done. rewrite view_lookup.
    destruct (gs !! g') as [l'|] eqn:Hg'; simpl; [|done].
    rewrite lookup_insert_ne; [done|]. intros Heq.
    destruct (Ha _ _ Hg') as [r' Hr']. apply elem_of_dom_2 in Hr'.
    rewrite <- Heq in Hr'. exact (is_fresh (dom h) Hr').
Qed.

Lemma allocated_new gs h g r :
  allocated gs h -> allocated (<[g := fresh (dom h)]> gs) (<[fresh (dom h) := r]> h).
Proof.
  intros Ha g' l. destruct (decide (g' = g)) as [->|Hne].
  - rewrite lookup_insert_eq. intros [= <-]. rewrite lookup_insert_eq. eauto.
  - rewrite lookup_insert_ne by done. intros Hg'.
    destruct (decide (l = fresh (dom h))) as [->|Hl].
    + rewrite lookup_insert_eq. eauto.
    + rewrite lookup_insert_ne by done. eauto.
Qed.

Lemma unshared_new gs h g :
  allocated gs h -> unshared gs -> unshared (<[g := fresh (dom h)]> gs).
Proof.
  intros Ha Hu g1 g2 l.
  assert (Hfresh : forall g', gs !! g' = Some (fresh (dom h)) -> False).
  { intros g' Hg'. destruct (Ha _ _ Hg') as [r' Hr']. apply elem_of_dom_2 in Hr'.
    exact (is_fresh (dom h) Hr'). }
  destruct (decide (g1 = g)) as [->|H1], (decide (g2 = g)) as [->|H2];
    rewrite ?lookup_insert_eq, ?lookup_insert_ne by done.
  - done.
  - intros [= <-] Hg2. destruct (Hfresh _ Hg2).
  - intros Hg1 [= <-]. destruct (Hfresh _ Hg1).
  - apply Hu.
Qed.

(** ** One event of the first pass *)

Lemma events2gs_switch_spec gs h ev :
  allocated gs h -> unshared gs ->
  match events2gs_switch gs ev h with
  | Panic => Typ ev = EvGoEnd /\ gs !! G ev = None
  | Done gs' h' =>
      allocated gs' h' /\ unshared gs' /\
      ~ (Typ ev = EvGoEnd /\ gs !! G ev = None) /\
      view gs' h' = view_switch (view gs h) ev
  end.
Proof.
  intros Ha Hu. unfold events2gs_switch, view_switch.
  destruct (Typ ev =? EvGoCreate) eqn:Hc.
  - apply Z.eqb_eq in Hc.
    unfold bind, new. rewrite (load_Some _ _ (Goroutine_lit (Args0 ev) (Ts ev)))
      by apply lookup_insert_eq.
    unfold ret. simpl ID. split_and!.
    + by apply allocated_new.
    + by apply unshared_new.
    + intros [He _]. rewrite Hc in He. discriminate.
    + by apply view_new.
  - destruct (Typ ev =? EvGoEnd) eqn:He.
    + apply Z.eqb_eq in He. unfold bind. cbv zeta.
      destruct (gs !! G ev) as [l|] eqn:Hg; simpl; [|done].
      destruct (Ha _ _ Hg) as [r Hr]. rewrite Hr. unfold ret. split_and!.
      * by apply allocated_write.
      * done.
      * intros [_ ?]. discriminate.
      * rewrite (view_lookup_Some _ _ _ _ _ Hg Hr). by apply view_write.
    + unfold ret. split_and!; [done..| |done].
      intros [He' _]. apply Z.eqb_neq in He. contradiction.
Qed.

Lemma events2gs_observe_spec gs h ev :
  allocated gs h -> unshared gs ->
  exists h',
    events2gs_observe gs ev h = Done gs h' /\ allocated gs h' /\
    view gs h' = view_observe (view gs h) ev.
Proof.
  intros Ha Hu. unfold events2gs_observe, view_observe.
  destruct (gs !! G ev) as [l|] eqn:Hg.
  - destruct (Ha _ _ Hg) as [r Hr].
    rewrite (view_lookup_Some _ _ _ _ _ Hg Hr).
    set (r1 := set_lastState (state_name (Typ ev)) r).
    set (r2 := set_lastStack (Stk ev) r1).
    erewrite bind_Done by (apply assign_Some; exact Hr).
    erewrite bind_Done by (apply assign_Some; apply lookup_insert_eq).
    fold r1. fold r2. rewrite insert_insert_eq.
    erewrite bind_Done by (apply load_Some; apply lookup_insert_eq).
    unfold observe. fold r1. fold r2.
    destruct (Stk ev) as [|frame stk] eqn:Hstk.
    + simpl. unfold bind, ret. eexists. split; [reflexivity|].
      split; [by apply allocated_write | by apply view_write].
    + simpl length. simpl andb. simpl lookup.
      change (name r2) with (name r).
      destruct (bool_decide (name r = "")) eqn:Hn.
      * erewrite bind_Done by (apply assign_Some; apply lookup_insert_eq).
        rewrite insert_insert_eq. unfold ret. eexists. split; [reflexivity|].
        split; [by apply allocated_write | by apply view_write].
      * unfold bind, ret. eexists. split; [reflexivity|].
        split; [by apply allocated_write | by apply view_write].
  - exists h. split; [reflexivity|]. split; [done|].
    assert (view gs h !! G ev = None) as -> by (by apply view_None). done.
Qed.

Lemma view_observe_lookup m ev g :
  view_observe m ev !! g = if owns g ev then observe ev <$> m !! g else m !! g.
Proof.
  unfold view_observe, owns. destruct (Z.eqb_spec (G ev) g) as [<-|Hne].
  - destruct (m !! G ev) as [r|] eqn:Hr.
    + by rewrite lookup_insert_eq.
    + by rewrite Hr.
  - destruct (m !! G ev) as [r|] eqn:Hr; [|done].
    by rewrite lookup_insert_ne.
Qed.

Lemma view_switch_lookup m ev g :
  view_switch m ev !! g =
  if creates g ev then Some (Goroutine_lit g (Ts ev))
  else if ends g ev then set_destroy (Ts ev) <$> m !! g
  else m !! g.
Proof.
  unfold view_switch, creates, ends.
  destruct (Z.eqb_spec (Typ ev) EvGoCreate) as [Hc|Hc]; cbn [andb].
  - destruct (Z.eqb_spec (Args0 ev) g) as [<-|Hne].
    + by rewrite lookup_insert_eq.
    + rewrite lookup_insert_ne by done.
      rewrite Hc. reflexivity.
  - destruct (Z.eqb_spec (Typ ev) EvGoEnd) as [He|He]; cbn [andb]; [|done].
    destruct (Z.eqb_spec (G ev) g) as [<-|Hne].
    + destruct (m !! G ev) as [r|] eqn:Hr.
      * by rewrite lookup_insert_eq.
      * by rewrite Hr.
    + destruct (m !! G ev) as [r|] eqn:Hr; [|done].
      by rewrite lookup_insert_ne.
Qed.

Lemma view_pass1_lookup m ev g :
  view_observe (view_switch m ev) ev !! g = history1_step g (m !! g) ev.
Proof.
  rewrite view_observe_lookup, view_switch_lookup. reflexivity.
Qed.
Lemma view_adopt_lookup m ev g :
  view_adopt m ev !! g = history2_step g (m !! g) ev.
Proof.
  unfold view_adopt, history2_step, links.
  destruct (Typ ev =? EvGoCreate); cbn [andb]; [|done].
  destruct (Link ev) as [link|]; [|done].
  destruct (Z.eqb_spec (G link) g) as [<-|Hne].
  - destruct (m !! G link) as [r|] eqn:Hr.
    + by rewrite lookup_insert_eq.
    + by rewrite Hr.
  - destruct (m !! G link) as [r|] eqn:Hr; [|done].
    by rewrite lookup_insert_ne.
Qed.

Lemma view_switch_dom m ev :
  dom (view_switch m ev) =
  if Typ ev =? EvGoCreate then {[Args0 ev]} ∪ dom m else dom m.
Proof.
  unfold view_switch. destruct (Typ ev =? EvGoCreate).
  - apply dom_insert_L.
  - destruct (Typ ev =? EvGoEnd); [|done].
    destruct (m !! G ev) as [r|] eqn:Hr; [|done].
    rewrite dom_insert_L. apply subseteq_union_1_L, singleton_subseteq_l.
    by apply elem_of_dom_2 in Hr.
Qed.

Lemma view_observe_dom m ev : dom (view_observe m ev) = dom m.
Proof.
  unfold view_observe. destruct (m !! G ev) as [r|] eqn:Hr; [|done].
  rewrite dom_insert_L. apply subseteq_union_1_L, singleton_subseteq_l.
    by apply elem_of_dom_2 in Hr.
Qed.

Lemma events2gs_pass1_spec gs h ev :
  allocated gs h -> unshared gs ->
  match events2gs_pass1 gs ev h with
  | Panic => Typ ev = EvGoEnd /\ gs !! G ev = None
  | Done gs' h' =>
      allocated gs' h' /\ unshared gs' /\
      ~ (Typ ev = EvGoEnd /\ gs !! G ev = None) /\
      view gs' h' = view_observe (view_switch (view gs h) ev) ev
  end.
Proof.
  intros Ha Hu. unfold events2gs_pass1, bind.
  pose proof (events2gs_switch_spec gs h ev Ha Hu) as Hs.
  destruct (events2gs_switch gs ev h) as [gs1 h1|]; [|done].
  destruct Hs as (Ha1 & Hu1 & Hn & Hv).
  destruct (events2gs_observe_spec gs1 h1 ev Ha1 Hu1) as (h2 & -> & Ha2 & Hv2).
  rewrite Hv2, Hv. done.
Qed.

Lemma events2gs_pass2_spec gs h ev :
  allocated gs h -> unshared gs ->
  exists h',
    events2gs_pass2 gs ev h = Done gs h' /\ allocated gs h' /\
    view gs h' = view_adopt (view gs h) ev.
Proof.
  intros Ha Hu. unfold events2gs_pass2, view_adopt.
  destruct (Typ ev =? EvGoCreate); cbn [negb orb]; [|by exists h].
  destruct (Link ev) as [link|].
  - rewrite bool_decide_eq_false_2 by done.
    destruct (gs !! G link) as [l|] eqn:Hg.
    + destruct (Ha _ _ Hg) as [r Hr]. cbv zeta.
      rewrite (view_lookup_Some _ _ _ _ _ Hg Hr).
      erewrite bind_Done by (apply assign_Some; exact Hr).
      erewrite bind_Done by (apply assign_Some; apply lookup_insert_eq).
      rewrite insert_insert_eq. unfold ret. eexists. split; [reflexivity|].
      split; [by apply allocated_write | by apply view_write].
    + exists h. split; [done|]. split; [done|].
      assert (view gs h !! G link = None) as -> by (by apply view_None). done.
  - rewrite bool_decide_eq_true_2 by done. by exists h.
Qed.

(** ** The two loops *)

Lemma events2gs_loop1 events : forall gs h,
  allocated gs h -> unshared gs ->
  match for_range events2gs_pass1 gs events h with
  | Panic => ends_known (dom gs) events = false
  | Done gs' h' =>
      ends_known (dom gs) events = true /\ allocated gs' h' /\ unshared gs' /\
      forall g, view gs' h' !! g = fold_left (history1_step g) events (view gs h !! g)
  end.
Proof.
  induction events as [|ev events IH]; intros gs h Ha Hu; simpl.
  - unfold ret. done.
  - unfold bind.
    pose proof (events2gs_pass1_spec gs h ev Ha Hu) as Hs.
    assert (Hdom : forall gs' h', allocated gs' h' ->
              view gs' h' = view_observe (view_switch (view gs h) ev) ev ->
              dom gs' = if Typ ev =? EvGoCreate then {[Args0 ev]} ∪ dom gs else dom gs).
    { intros gs' h' Ha' Hv. rewrite <- (view_dom gs' h') by done.
      rewrite Hv, view_observe_dom, view_switch_dom, view_dom by done. done. }
    destruct (events2gs_pass1 gs ev h) as [gs1 h1|].
    + destruct Hs as (Ha1 & Hu1 & Hn & Hv).
      specialize (IH gs1 h1 Ha1 Hu1). rewrite (Hdom _ _ Ha1 Hv) in IH.
      assert (Hend : (Typ ev =? EvGoCreate) = false -> (Typ ev =? EvGoEnd) = true ->
                     bool_decide (G ev ∈ dom gs) = true).
      { intros _ He. apply Z.eqb_eq in He. apply bool_decide_eq_true_2.
        apply elem_of_dom. destruct (gs !! G ev) eqn:Hg; [eauto|].
        destruct Hn. done. }
      destruct (for_range events2gs_pass1 gs1 events h1) as [gs2 h2|].
      * destruct IH as (Hk & Ha2 & Hu2 & Hl). split_and!; [|done..|].
        -- destruct (Typ ev =? EvGoCreate); [done|].
           destruct (Typ ev =? EvGoEnd); [|done].
           rewrite Hend by done. done.
        -- intros g. rewrite Hl, Hv, view_pass1_lookup. done.
      * destruct (Typ ev =? EvGoCreate); [done|].
        destruct (Typ ev =? EvGoEnd); [|done].
        rewrite IH. apply andb_false_r.
    + destruct Hs as [He Hg]. rewrite He. simpl.
      rewrite bool_decide_eq_false_2; [done|].
      by apply not_elem_of_dom.
Qed.

Lemma events2gs_loop2 events : forall gs h,
  allocated gs h -> unshared gs ->
  exists h',
    for_range events2gs_pass2 gs events h = Done gs h' /\ allocated gs h' /\
    forall g, view gs h' !! g = fold_left (history2_step g) events (view gs h !! g).
Proof.
  induction events as [|ev events IH]; intros gs h Ha Hu; simpl.
  - exists h. done.
  - destruct (events2gs_pass2_spec gs h ev Ha Hu) as (h1 & Hr & Ha1 & Hv).
    destruct (IH gs h1 Ha1 Hu) as (h2 & Hr2 & Ha2 & Hl).
    exists h2. rewrite (bind_Done _ _ _ _ _ Hr). split_and!; [done..|].
    intros g. rewrite Hl, Hv, view_adopt_lookup. done.
Qed.

(** ** Reconstruction as a whole *)

(** [events2gs] panics exactly on the traces where a termination event is
    owned by a goroutine that no earlier event created; otherwise it
    returns a mapping whose records are the histories of its goroutines. *)
Lemma events2gs_spec events h :
  match events2gs events h with
  | Panic => ends_known ∅ events = false
  | Done gs h' =>
      ends_known ∅ events = true /\ allocated gs h' /\ unshared gs /\
      forall g, view gs h' !! g = history g events
  end.
Proof.
  unfold events2gs, bind.
  assert (Ha : allocated ∅ h) by (intros g l Hg; by rewrite lookup_empty in Hg).
  assert (Hu : unshared ∅) by (intros g1 g2 l Hg; by rewrite lookup_empty in Hg).
  pose proof (events2gs_loop1 events ∅ h Ha Hu) as H1.
  rewrite dom_empty_L in H1.
  destruct (for_range events2gs_pass1 ∅ events h) as [gs1 h1|]; [|done].
  destruct H1 as (Hk & Ha1 & Hu1 & Hl1).
  destruct (events2gs_loop2 events gs1 h1 Ha1 Hu1) as (h2 & -> & Ha2 & Hl2).
  split_and!; [done..|]. intros g. rewrite Hl2, Hl1.
  unfold history. by rewrite view_lookup, lookup_empty.
Qed.

Lemma events2gs_Done events h :
  ends_known ∅ events = true ->
  exists gs h', events2gs events h = Done gs h' /\ allocated gs h' /\ unshared gs /\
                forall g, view gs h' !! g = history g events.
Proof.
  intros Hk. pose proof (events2gs_spec events h) as Hs.
  destruct (events2gs events h) as [gs h'|]; [|congruence].
  destruct Hs as (_ & Hs). eauto.
Qed.
(** ** Histories: the second pass *)

Lemma history2_fold_None g events :
  fold_left (history2_step g) events None = None.
Proof.
  induction events as [|ev events IH]; simpl; [done|].
  unfold history2_step at 2. by destruct (links g ev).
Qed.

Lemma history2_fold_Some g events : forall r,
  exists pid pst,
    fold_left (history2_step g) events (Some r) =
    Some (set_parentStack pst (set_ParentID pid r)).
Proof.
  induction events as [|ev events IH]; intros r; simpl.
  - exists (ParentID r), (parentStack r). by destruct r.
  - unfold history2_step at 2. destruct (links g ev); simpl.
    + destruct (IH (adopt ev r)) as (pid & pst & ->). by exists pid, pst.
    + apply IH.
Qed.

(** The second pass leaves every field but the parent linkage alone, and
    neither adds nor removes a goroutine. *)
Lemma history_inv g events r :
  history g events = Some r ->
  exists r1, fold_left (history1_step g) events None = Some r1 /\
             ID r = ID r1 /\ name r = name r1 /\ create r = create r1 /\
             destroy r = destroy r1 /\ lastStack r = lastStack r1 /\
             lastState r = lastState r1.
Proof.
  unfold history. destruct (fold_left (history1_step g) events None) as [r1|].
  - destruct (history2_fold_Some g events r1) as (pid & pst & ->).
    intros [= <-]. exists r1. done.
  - by rewrite history2_fold_None.
Qed.

Lemma history_is_Some g events :
  is_Some (history g events) <-> is_Some (fold_left (history1_step g) events None).
Proof.
  unfold history. destruct (fold_left (history1_step g) events None) as [r1|].
  - destruct (history2_fold_Some g events r1) as (pid & pst & ->).
    split; eauto.
  - by rewrite history2_fold_None.
Qed.

(** The linkage is the one of the last creation event that links to [g]. *)
Lemma history2_last g pre ev post o r :
  links g ev = true -> existsb (links g) post = false ->
  fold_left (history2_step g) (pre ++ ev :: post) o = Some r ->
  ParentID r = G ev /\ parentStack r = Stk ev.
Proof.
  intros Hl Hpost. rewrite fold_left_app. simpl.
  set (o1 := fold_left (history2_step g) pre o). clearbody o1.
  unfold history2_step at 2. rewrite Hl.
  assert (Hid : forall o', fold_left (history2_step g) post o' = o').
  { clear -Hpost. induction post as [|e post IH]; intros o'; simpl; [done|].
    simpl in Hpost. apply orb_false_elim in Hpost as [He Hpost].
    unfold history2_step at 2. rewrite He. by apply IH. }
  rewrite Hid. destruct o1 as [r1|]; [|done]. intros [= <-]. done.
Qed.

(** ** Histories: the first pass *)

Lemma history1_step_Some g r ev : is_Some (history1_step g (Some r) ev).
Proof.
  unfold history1_step.
  destruct (creates g ev), (ends g ev), (owns g ev); simpl; eauto.
Qed.

Lemma history1_fold_Some g events : forall r,
  is_Some (fold_left (history1_step g) events (Some r)).
Proof.
  induction events as [|ev events IH]; intros r; simpl; [eauto|].
  destruct (history1_step_Some g r ev) as [r' ->]. apply IH.
Qed.

Lemma ends_owns g ev : owns g ev = false -> ends g ev = false.
Proof. unfold ends, owns. intros ->. apply andb_false_r. Qed.

(** An event that neither creates [g] nor is owned by it leaves the
    record of [g] alone. *)
Lemma history1_step_other g o ev :
  creates g ev = false -> owns g ev = false -> history1_step g o ev = o.
Proof.
  intros Hc Ho. unfold history1_step. by rewrite Hc, Ho, ends_owns.
Qed.

Lemma history1_fold_other g events : forall o,
  existsb (creates g) events = false -> existsb (owns g) events = false ->
  fold_left (history1_step g) events o = o.
Proof.
  induction events as [|ev events IH]; intros o Hc Ho; simpl; [done|].
  simpl in Hc, Ho. apply orb_false_elim in Hc as [Hc Hc'].
  apply orb_false_elim in Ho as [Ho Ho'].
  rewrite history1_step_other by done. by apply IH.
Qed.

(** A goroutine is in the mapping exactly when some event created it. *)
Lemma history1_fold_None g events :
  existsb (creates g) events = false ->
  fold_left (history1_step g) events None = None.
Proof.
  induction events as [|ev events IH]; simpl; [done|].
  intros Hc. apply orb_false_elim in Hc as [Hc Hc'].
  unfold history1_step at 2. rewrite Hc.
  destruct (ends g ev), (owns g ev); simpl; by apply IH.
Qed.

Lemma history1_fold_created g events : forall o,
  existsb (creates g) events = true ->
  is_Some (fold_left (history1_step g) events o).
Proof.
  induction events as [|ev events IH]; intros o; simpl; [done|].
  destruct (creates g ev) eqn:Hc; simpl.
  - intros _. unfold history1_step at 2. rewrite Hc.
    destruct (owns g ev); simpl; apply history1_fold_Some.
  - apply IH.
Qed.

Lemma history_created g events :
  is_Some (history g events) <-> existsb (creates g) events = true.
Proof.
  rewrite history_is_Some. split.
  - intros Hs. destruct (existsb (creates g) events) eqn:Hc; [done|].
    rewrite history1_fold_None in Hs by done. by destruct Hs.
  - apply history1_fold_created.
Qed.

Lemma observe_last ev r :
  lastState (observe ev r) = state_name (Typ ev) /\
  lastStack (observe ev r) = Stk ev.
Proof.
  unfold observe. destruct (Stk ev) as [|frame stk]; [done|].
  by destruct (bool_decide _).
Qed.

Lemma observe_fields ev r :
  ID (observe ev r) = ID r /\ create (observe ev r) = create r /\
  destroy (observe ev r) = destroy r /\ ParentID (observe ev r) = ParentID r /\
  parentStack (observe ev r) = parentStack r.
Proof.
  unfold observe. destruct (Stk ev) as [|frame stk]; [done|].
  by destruct (bool_decide _).
Qed.

(** The last event [g] owns, when nothing creates [g] anew after it,
    decides the last state and the last stack. *)
Lemma history1_last g pre ev post o r :
  owns g ev = true ->
  existsb (creates g) post = false -> existsb (owns g) post = false ->
  fold_left (history1_step g) (pre ++ ev :: post) o = Some r ->
  lastState r = state_name (Typ ev) /\ lastStack r = Stk ev.
Proof.
  intros Ho Hc Hp. rewrite fold_left_app. simpl.
  rewrite history1_fold_other by done.
  unfold history1_step at 1. rewrite Ho.
  destruct (if creates g ev then _ else _) as [r1|]; [|done].
  intros [= <-]. apply observe_last.
Qed.

(** The record of [g] has no termination time exactly when no
    termination event of [g] was seen, as long as these events carry a
    timestamp other than zero and [g] is not created anew after one. *)
Lemma history1_destroy g events : forall o ended,
  (forall r, o = Some r -> destroy r = 0 <-> ended = false) ->
  (ended = true -> existsb (creates g) events = false) ->
  ends_nonzero g events = true -> not_created_again g events = true ->
  forall r, fold_left (history1_step g) events o = Some r ->
            destroy r = 0 <-> ended || existsb (ends g) events = false.
Proof.
  induction events as [|ev events IH]; intros o ended Ho Hended Hnz Hnc r; simpl.
  - intros ->. rewrite orb_false_r. by apply Ho.
  - simpl in Hnz, Hnc. apply andb_prop in Hnz as [Hnz Hnz'].
    apply andb_prop in Hnc as [Hnc Hnc']. intros Hr.
    rewrite orb_assoc.
    apply (IH (history1_step g o ev) (ended || ends g ev)); try done.
    + intros r1. unfold history1_step.
      destruct (creates g ev) eqn:Hc.
      * assert (ended = false) as ->.
        { destruct ended; [|done]. specialize (Hended eq_refl).
          simpl in Hended. by rewrite Hc in Hended. }
        assert (ends g ev = false) as ->.
        { unfold creates, ends in *. apply andb_prop in Hc as [Hc _].
          apply Z.eqb_eq in Hc. by rewrite Hc. }
        destruct (owns g ev); simpl; intros [= <-]; [|done].
        by destruct (observe_fields ev (Goroutine_lit g (Ts ev))) as (_ & _ & -> & _).
      * destruct (ends g ev) eqn:He.
        -- rewrite orb_true_r. simpl in Hnz. apply negb_true_iff, Z.eqb_neq in Hnz.
           destruct o as [r0|]; destruct (owns g ev); simpl; intros [= <-].
           ++ destruct (observe_fields ev (set_destroy (Ts ev) r0)) as (_ & _ & -> & _).
              simpl. split; [done | discriminate].
           ++ simpl. split; [done | discriminate].
        -- rewrite orb_false_r.
           destruct o as [r0|]; destruct (owns g ev); simpl; intros [= <-].
           ++ destruct (observe_fields ev r0) as (_ & _ & -> & _). by apply Ho.
           ++ by apply Ho.
    + intros Hor. apply orb_prop in Hor as [->|He].
      * specialize (Hended eq_refl). simpl in Hended.
        by apply orb_false_elim in Hended as [_ ?].
      * rewrite He in Hnc. simpl in Hnc. by apply negb_true_iff in Hnc.
Qed.

(** A record fresh from its creation stays fresh while [g] owns no event. *)
Lemma history1_fold_fresh g events : forall ts,
  existsb (owns g) events = false ->
  exists ts', fold_left (history1_step g) events (Some (Goroutine_lit g ts)) =
              Some (Goroutine_lit g ts').
Proof.
  induction events as [|ev events IH]; intros ts Ho; simpl; [by exists ts|].
  simpl in Ho. apply orb_false_elim in Ho as [Ho Ho'].
  unfold history1_step at 2. rewrite Ho, ends_owns by done.
  destruct (creates g ev); by apply IH.
Qed.

(** *** The name *)

Lemma observe_named ev r : name r <> "" -> name (observe ev r) = name r.
Proof.
  intros Hn. unfold observe. destruct (Stk ev) as [|frame stk]; [done|].
  simpl. by rewrite bool_decide_eq_false_2.
Qed.

Lemma observe_unnamed g ev r :
  name r = "" -> owns g ev = true -> gives_name g ev = false ->
  name (observe ev r) = "".
Proof.
  intros Hn Ho Hg. unfold gives_name in Hg. rewrite Ho in Hg. simpl in Hg.
  unfold observe. destruct (Stk ev) as [|frame stk]; [done|].
  simpl. rewrite bool_decide_eq_true_2 by done. simpl.
  apply negb_false_iff, bool_decide_eq_true_1 in Hg. done.
Qed.

Lemma observe_gives_name g ev r frame :
  name r = "" -> gives_name g ev = true -> Stk ev !! 0%nat = Some frame ->
  name (observe ev r) = Fn frame /\ Fn frame <> "".
Proof.
  intros Hn Hg Hf. unfold gives_name in Hg. apply andb_prop in Hg as [_ Hg].
  unfold observe. destruct (Stk ev) as [|frame' stk]; [done|].
  simpl in Hf. injection Hf as ->. simpl.
  rewrite bool_decide_eq_true_2 by done. simpl.
  apply negb_true_iff, bool_decide_eq_false_1 in Hg. done.
Qed.

(** Once the name is not empty, no later event changes it, unless [g] is
    created anew. *)
Lemma history1_fold_named g events : forall r r',
  existsb (creates g) events = false -> name r <> "" ->
  fold_left (history1_step g) events (Some r) = Some r' -> name r' = name r.
Proof.
  induction events as [|ev events IH]; intros r r' Hc Hn; simpl.
  - by intros [= <-].
  - simpl in Hc. apply orb_false_elim in Hc as [Hc Hc'].
    unfold history1_step at 2. rewrite Hc.
    destruct (ends g ev), (owns g ev); simpl; intros Hr;
      apply IH in Hr; try done; rewrite ?Hr, ?observe_named; try done.
Qed.

(** While no event gives a name, the name stays empty. *)
Lemma history1_fold_unnamed g events : forall r r',
  existsb (creates g) events = false -> name r = "" ->
  existsb (gives_name g) events = false ->
  fold_left (history1_step g) events (Some r) = Some r' -> name r' = "".
Proof.
  induction events as [|ev events IH]; intros r r' Hc Hn Hg; simpl.
  - by intros [= <-].
  - simpl in Hc, Hg. apply orb_false_elim in Hc as [Hc Hc'].
    apply orb_false_elim in Hg as [Hg Hg'].
    unfold history1_step at 2. rewrite Hc.
    destruct (ends g ev), (owns g ev) eqn:Ho; simpl; intros Hr;
      apply IH in Hr; try done.
    + by apply (observe_unnamed g).
    + by apply (observe_unnamed g).
Qed.

(** The first event that gives a name decides it. *)
Lemma history1_fold_first_name g l1 ev l2 frame r r' :
  existsb (creates g) (l1 ++ ev :: l2) = false -> name r = "" ->
  existsb (gives_name g) l1 = false -> gives_name g ev = true ->
  Stk ev !! 0%nat = Some frame ->
  fold_left (history1_step g) (l1 ++ ev :: l2) (Some r) = Some r' ->
  name r' = Fn frame.
Proof.
  intros Hc Hn Hg1 Hg Hf. rewrite existsb_app in Hc.
  apply orb_false_elim in Hc as [Hc1 Hc]. simpl in Hc.
  apply orb_false_elim in Hc as [Hc Hc2].
  rewrite fold_left_app. simpl.
  destruct (history1_fold_Some g l1 r) as [r1 Hr1]. rewrite Hr1.
  pose proof (history1_fold_unnamed g l1 r r1 Hc1 Hn Hg1 Hr1) as Hn1.
  assert (Ho : owns g ev = true).
  { unfold gives_name in Hg. by apply andb_prop in Hg as [? _]. }
  unfold history1_step at 2. rewrite Hc, Ho.
  destruct (ends g ev); simpl; intros Hr.
  - destruct (observe_gives_name g ev (set_destroy (Ts ev) r1) frame) as [Hname Hne];
      try done.
    apply history1_fold_named in Hr; try done; by rewrite ?Hr, ?Hname.
  - destruct (observe_gives_name g ev r1 frame) as [Hname Hne]; try done.
    apply history1_fold_named in Hr; try done; by rewrite ?Hr, ?Hname.
Qed.
(** ** Computations that only read *)

Lemma readonly_ret {A} (a : A) : readonly (ret a).
Proof. intros h a' h'. unfold ret. by intros [= _ <-]. Qed.

Lemma readonly_load p : readonly (load p).
Proof.
  intros h a h'. unfold load. destruct p as [l|]; [|done].
  destruct (h !! l); [|done]. by intros [= _ <-].
Qed.

Lemma readonly_bind {A B} (m : M A) (k : A -> M B) :
  readonly m -> (forall a, readonly (k a)) -> readonly (bind m k).
Proof.
  intros Hm Hk h b h'' Hb. apply bind_inv_Done in Hb as (a & h' & Ha & Hb).
  apply Hm in Ha as ->. by apply Hk in Hb.
Qed.

Lemma readonly_for_range {A St} (body : St -> A -> M St) xs :
  (forall acc x, readonly (body acc x)) -> forall acc, readonly (for_range body acc xs).
Proof.
  intros Hbody. induction xs as [|x xs IH]; intros acc; simpl.
  - apply readonly_ret.
  - apply readonly_bind; [apply Hbody | apply IH].
Qed.

Lemma readonly_unfinishedGs_body acc kv : readonly (unfinishedGs_body acc kv).
Proof.
  destruct kv as [id g]. unfold unfinishedGs_body.
  apply readonly_bind; [apply readonly_load|]. intros r.
  destruct (negb (destroy r =? 0)); apply readonly_ret.
Qed.

Lemma readonly_hash p : readonly (hash p).
Proof.
  unfold hash. apply readonly_bind; [apply readonly_load|].
  intros r. apply readonly_ret.
Qed.

Lemma readonly_uniq_body acc g : readonly (uniq_body acc g).
Proof.
  unfold uniq_body. apply readonly_bind; [apply readonly_hash|].
  intros id. apply readonly_ret.
Qed.

Lemma readonly_unfinishedGs_in order : readonly (unfinishedGs_in order).
Proof. apply readonly_for_range, readonly_unfinishedGs_body. Qed.

Lemma readonly_uniq gs : readonly (uniq gs).
Proof.
  unfold uniq. apply readonly_bind.
  - apply readonly_for_range, readonly_uniq_body.
  - intros gm. apply readonly_ret.
Qed.

(** ** The filter *)

Lemma unfinishedGs_body_spec acc id g h r :
  h !! g = Some r ->
  unfinishedGs_body acc (id, g) h =
  Done (if decide (destroy r = 0) then <[id := g]> acc else acc) h.
Proof.
  intros Hr. unfold unfinishedGs_body.
  rewrite (bind_Done _ _ _ _ _ (load_Some _ _ _ Hr)).
  destruct (Z.eqb_spec (destroy r) 0) as [Hd|Hd]; simpl; unfold ret.
  - by rewrite decide_True.
  - by rewrite decide_False.
Qed.

Lemma unfinishedGs_loop h order : forall acc,
  NoDup order.*1 ->
  (forall id g, (id, g) ∈ order -> acc !! id = None /\ is_Some (h !! g)) ->
  exists u, for_range unfinishedGs_body acc order h = Done u h /\
            forall id g, u !! id = Some g <->
                         acc !! id = Some g \/ ((id, g) ∈ order /\ unfinished h g).
Proof.
  induction order as [|[id0 g0] order IH]; intros acc Hnd Hin; simpl.
  - exists acc. split; [done|]. intros id g. split; [eauto|].
    intros [?|[Hel _]]; [done|]. by apply elem_of_nil in Hel.
  - simpl in Hnd. apply NoDup_cons in Hnd as [Hfresh Hnd].
    destruct (Hin id0 g0) as [Hacc [r0 Hr0]]; [apply list_elem_of_here|].
    rewrite (bind_Done _ _ _ _ _ (unfinishedGs_body_spec acc id0 g0 h r0 Hr0)).
    set (acc1 := if decide (destroy r0 = 0) then <[id0 := g0]> acc else acc).
    destruct (IH acc1) as (u & Hu & Hlook); [done| |].
    { intros id g Hel. destruct (Hin id g) as [Hn Hs]; [by apply list_elem_of_further|].
      split; [|done]. unfold acc1. destruct (decide (destroy r0 = 0)); [|done].
      rewrite lookup_insert_ne; [done|]. intros <-. apply Hfresh.
      apply list_elem_of_fmap. by exists (id0, g). }
    exists u. split; [done|]. intros id g. rewrite Hlook. unfold acc1.
    rewrite elem_of_cons. split.
    + intros [Ha|[Hel Hun]]; [|by eauto].
      destruct (decide (destroy r0 = 0)) as [Hd|Hd]; [|by left].
      destruct (decide (id = id0)) as [->|Hne].
      * rewrite lookup_insert_eq in Ha. injection Ha as <-.
        right. split; [by left|]. by exists r0.
      * rewrite lookup_insert_ne in Ha by done. by left.
    + intros [Ha|[[Heq|Hel] Hun]].
      * left. destruct (decide (destroy r0 = 0)); [|done].
        rewrite lookup_insert_ne; [done|]. intros <-. congruence.
      * injection Heq as -> ->. left.
        destruct Hun as (r & Hr & Hd). rewrite Hr0 in Hr. injection Hr as <-.
        rewrite decide_True by done. apply lookup_insert_eq.
      * right. done.
Qed.

(** Whatever the order of the visit, the filter keeps the entries whose
    record has no termination time, and returns the heap as it was. *)
Lemma unfinishedGs_in_spec gs h order :
  allocated gs h -> range_order gs order ->
  exists u, unfinishedGs_in order h = Done u h /\
            forall id g, u !! id = Some g <-> gs !! id = Some g /\ unfinished h g.
Proof.
  intros Ha Hperm. unfold range_order in Hperm.
  assert (Hel : forall id g, (id, g) ∈ order <-> gs !! id = Some g).
  { intros id g. rewrite Hperm. apply elem_of_map_to_list. }
  destruct (unfinishedGs_loop h order ∅) as (u & Hu & Hlook).
  - rewrite Hperm. apply NoDup_fst_map_to_list.
  - intros id g Hin. split; [apply lookup_empty|]. apply Hel in Hin. eauto.
  - exists u. split; [done|]. intros id g. rewrite Hlook, lookup_empty, Hel.
    split; [intros [?|?]; done | eauto].
Qed.

Lemma range_order_map_to_list {K V} `{Countable K} (m : gmap K V) :
  range_order m (map_to_list m).
Proof. unfold range_order. reflexivity. Qed.

Lemma unfinishedGs_spec gs h :
  allocated gs h ->
  exists u, unfinishedGs gs h = Done u h /\
            forall id g, u !! id = Some g <-> gs !! id = Some g /\ unfinished h g.
Proof.
  intros Ha. apply unfinishedGs_in_spec; [done|]. apply range_order_map_to_list.
Qed.

Lemma unfinished_allocated gs h u :
  allocated gs h ->
  (forall id g, u !! id = Some g <-> gs !! id = Some g /\ unfinished h g) ->
  allocated u h.
Proof. intros Ha Hu id g Hg. apply Hu in Hg as [Hg _]. eauto. Qed.

(** ** The grouper *)

Lemma uniq_body_spec acc g h r :
  h !! g = Some r ->
  uniq_body acc g h =
  Done (<[fingerprint r := (default [] (acc !! fingerprint r) ++ [g])%list]> acc) h.
Proof.
  intros Hr. unfold uniq_body, hash.
  rewrite (bind_Done _ _ _ (fingerprint r) h).
  2: { rewrite (bind_Done _ _ _ _ _ (load_Some _ _ _ Hr)). reflexivity. }
  unfold ret. destruct (acc !! fingerprint r) as [grp|] eqn:Hk.
  - rewrite bool_decide_eq_false_2 by done. by rewrite Hk.
  - rewrite bool_decide_eq_true_2 by done.
    by rewrite lookup_insert_eq, insert_insert_eq.
Qed.

(** After the first loop the group of a key is the list of the visited
    pointers with that fingerprint, in the order of the visit, behind
    what the group held before. *)
Lemma uniq_loop h ls : forall acc,
  (forall l, l ∈ ls -> is_Some (h !! l)) ->
  exists gm, for_range uniq_body acc ls h = Done gm h /\
             forall k, gm !! k =
                       if decide (acc !! k = None /\ filter (keyed h k) ls = [])
                       then None
                       else Some (default [] (acc !! k) ++ filter (keyed h k) ls)%list.
Proof.
  induction ls as [|l ls IH]; intros acc Hal; simpl.
  - exists acc. split; [done|]. intros k.
    destruct (acc !! k) as [grp|] eqn:Hk.
    + rewrite decide_False by (intros [? _]; done). simpl. by rewrite app_nil_r.
    + by rewrite decide_True.
  - destruct (Hal l) as [r Hr]; [by left|].
    rewrite (bind_Done _ _ _ _ _ (uniq_body_spec acc l h r Hr)).
    destruct (IH (<[fingerprint r := (default [] (acc !! fingerprint r) ++ [l])%list]> acc))
      as (gm & Hgm & Hlook).
    { intros l' Hl'. apply Hal. by right. }
    exists gm. split; [done|]. intros k. rewrite Hlook.
    destruct (decide (k = fingerprint r)) as [->|Hne].
    + rewrite lookup_insert_eq.
      rewrite decide_False by (intros [? _]; done).
      rewrite filter_cons_True by (unfold keyed; by rewrite Hr).
      rewrite decide_False by (intros [_ ?]; done).
      simpl. by rewrite <- app_assoc.
    + rewrite lookup_insert_ne by done.
      rewrite (filter_cons_False _ l) by (unfold keyed; rewrite Hr; simpl; congruence).
      done.
Qed.

Lemma uniq_loop_empty h ls :
  (forall l, l ∈ ls -> is_Some (h !! l)) ->
  exists gm, for_range uniq_body ∅ ls h = Done gm h /\
             forall k group, gm !! k = Some group <->
                             group = filter (keyed h k) ls /\ group <> [].
Proof.
  intros Hal. destruct (uniq_loop h ls ∅ Hal) as (gm & Hgm & Hlook).
  exists gm. split; [done|]. intros k group. rewrite Hlook, lookup_empty.
  destruct (decide (None = None /\ filter (keyed h k) ls = [])) as [[_ He]|Hn].
  - rewrite He. split; [done | intros [-> ?]; done].
  - simpl. split.
    + intros [= <-]. split; [done|]. intros He. apply Hn. done.
    + intros [-> _]. done.
Qed.

(** *** Sorting *)

Lemma sort_insert_Permutation {A} (less : A -> A -> bool) x l :
  sort_insert less x l ≡ₚ x :: l.
Proof.
  induction l as [|y l IH]; simpl; [done|].
  destruct (less x y); [done|]. rewrite IH. apply Permutation_swap.
Qed.

Lemma sort_Sort_Permutation {A} (less : A -> A -> bool) l :
  sort_Sort less l ≡ₚ l.
Proof.
  induction l as [|x l IH]; simpl; [done|].
  rewrite sort_insert_Permutation. by rewrite IH.
Qed.

Section insertion.
Context {A : Type} (less : A -> A -> bool).
Hypothesis less_asym : forall x y, less x y = true -> less y x = false.
Hypothesis less_trans :
  forall x y z, less y x = false -> less z y = false -> less z x = false.

Lemma sort_insert_ordered x l :
  ordered less l -> ordered less (sort_insert less x l).
Proof.
  unfold ordered. induction l as [|y l IH]; intros Hs; simpl.
  - repeat constructor.
  - apply StronglySorted_inv in Hs as [Hs Hall].
    destruct (less x y) eqn:Hxy.
    + constructor; [by constructor|]. constructor; [by apply less_asym|].
      eapply Forall_impl; [exact Hall|]. intros z Hz. simpl in Hz.
      eapply less_trans; [apply less_asym; exact Hxy | exact Hz].
    + constructor; [by apply IH|].
      rewrite sort_insert_Permutation. by constructor.
Qed.

Lemma sort_Sort_ordered l : ordered less (sort_Sort less l).
Proof.
  induction l as [|x l IH]; simpl; [constructor|].
  by apply sort_insert_ordered.
Qed.

Lemma ordered_lookup l : ordered less l ->
  forall (i j : nat) x y, (i < j)%nat -> l !! i = Some x -> l !! j = Some y ->
                          less y x = false.
Proof.
  unfold ordered. induction 1 as [|z l Hs IH Hall]; intros i j x y Hij Hi Hj.
  - by rewrite lookup_nil in Hi.
  - destruct j as [|j]; [lia|]. simpl in Hj. destruct i as [|i].
    + simpl in Hi. injection Hi as ->.
      rewrite Forall_forall in Hall. apply Hall.
      by apply list_elem_of_lookup_2 in Hj.
    + simpl in Hi. apply (IH i j); [lia|done..].
Qed.

Lemma sort_Sort_meets_post data : sort_Sort_post less data (sort_Sort less data).
Proof.
  split; [apply sort_Sort_Permutation|].
  apply ordered_lookup, sort_Sort_ordered.
Qed.
End insertion.

Lemma byLen_Less_asym {A} (x y : list A) :
  byLen_Less x y = true -> byLen_Less y x = false.
Proof. unfold byLen_Less. rewrite Nat.ltb_lt, Nat.ltb_ge. lia. Qed.

Lemma byLen_Less_trans {A} (x y z : list A) :
  byLen_Less y x = false -> byLen_Less z y = false -> byLen_Less z x = false.
Proof. unfold byLen_Less. rewrite !Nat.ltb_ge. lia. Qed.

(** What [sort.Sort] leaves behind under [byLen] comes by descending
    cardinality. *)
Lemma sort_Sort_post_descending data out :
  sort_Sort_post byLen_Less data out -> descending out.
Proof.
  intros [_ Hs] i Gi Gj Hi Hj.
  specialize (Hs i (S i) Gi Gj (Nat.lt_succ_diag_r i) Hi Hj).
  unfold byLen_Less in Hs. by apply Nat.ltb_ge in Hs.
Qed.

(** *** The runs of the grouper *)

Lemma range_order_values gs (order : list (Z * loc)) (l : loc) :
  range_order gs order -> l ∈ order.*2 <-> exists id, gs !! id = Some l.
Proof.
  unfold range_order. intros Hp. rewrite Hp, list_elem_of_fmap. split.
  - intros ([id l'] & -> & Hel). apply elem_of_map_to_list in Hel. eauto.
  - intros [id Hid]. exists (id, l). split; [done|]. by apply elem_of_map_to_list.
Qed.

(** The function [uniq] is one of the runs. *)
Lemma uniq_is_run gs h : uniq_run gs h (uniq gs h).
Proof.
  unfold uniq, bind.
  destruct (for_range uniq_body ∅ (map_to_list gs).*2 h) as [gm h'|] eqn:Hloop.
  - eapply uniq_run_done; [apply range_order_map_to_list | exact Hloop
                          | apply range_order_map_to_list |].
    apply sort_Sort_meets_post; [apply @byLen_Less_asym | apply @byLen_Less_trans].
  - eapply uniq_run_panic; [apply range_order_map_to_list | exact Hloop].
Qed.

(** On a mapping whose pointers all lead to records, no run panics, the
    heap comes back as it was, and the groups are the non-empty classes
    of the pointers under their fingerprint. *)
Lemma uniq_run_spec gs h o :
  allocated gs h -> uniq_run gs h o ->
  exists out order, o = Done out h /\ range_order gs order /\ descending out /\
    forall group, group ∈ out <->
                  exists k, group = filter (keyed h k) order.*2 /\ group <> [].
Proof.
  intros Ha Hrun.
  assert (Hal : forall order, range_order gs order ->
                              forall l, l ∈ order.*2 -> is_Some (h !! l)).
  { intros order Hord l Hl. apply (range_order_values gs) in Hl as [id Hid]; [|done].
    eauto. }
  destruct Hrun as [order Hord Hloop | order gm h' order' out Hord Hloop Hord' Hsort].
  - destruct (uniq_loop_empty h order.*2 (Hal order Hord)) as (gm & Hgm & _).
    congruence.
  - destruct (uniq_loop_empty h order.*2 (Hal order Hord)) as (gm' & Hgm & Hlook).
    rewrite Hgm in Hloop. injection Hloop as <- <-.
    exists out, order. split_and!; [done..| |].
    + by eapply sort_Sort_post_descending.
    + intros group. destruct Hsort as [Hperm _]. rewrite Hperm.
      unfold range_order in Hord'. rewrite Hord', list_elem_of_fmap. split.
      * intros ([k grp] & -> & Hel). apply elem_of_map_to_list in Hel.
        exists k. by apply Hlook.
      * intros (k & Hk). exists (k, group). split; [done|].
        apply elem_of_map_to_list. by apply Hlook.
Qed.

(** Two pointers of the mapping are in the same group exactly when their
    records have the same fingerprint. *)
Lemma uniq_run_same_group gs h out h' a b ra rb ida idb :
  allocated gs h -> uniq_run gs h (Done out h') ->
  gs !! ida = Some a -> gs !! idb = Some b ->
  h !! a = Some ra -> h !! b = Some rb ->
  same_group out a b <-> fingerprint ra = fingerprint rb.
Proof.
  intros Ha Hrun Hida Hidb Hra Hrb.
  destruct (uniq_run_spec gs h _ Ha Hrun) as (out' & order & Heq & Hord & _ & Hgrp).
  injection Heq as -> ->.
  assert (Hina : a ∈ order.*2) by (apply (range_order_values gs); eauto).
  assert (Hinb : b ∈ order.*2) by (apply (range_order_values gs); eauto).
  split.
  - intros (group & Hg & Hag & Hbg). apply Hgrp in Hg as (k & -> & _).
    apply list_elem_of_filter in Hag as [Hka _].
    apply list_elem_of_filter in Hbg as [Hkb _].
    unfold keyed in Hka, Hkb. rewrite Hra in Hka. rewrite Hrb in Hkb.
    simpl in Hka, Hkb. congruence.
  - intros Hfp. exists (filter (keyed h (fingerprint ra)) order.*2).
    assert (Hag : a ∈ filter (keyed h (fingerprint ra)) order.*2).
    { apply list_elem_of_filter. split; [|done]. unfold keyed. by rewrite Hra. }
    split_and!; [|done|].
    + apply Hgrp. exists (fingerprint ra). split; [done|].
      intros He. rewrite He in Hag. by apply elem_of_nil in Hag.
    + apply list_elem_of_filter. split; [|done]. unfold keyed. rewrite Hrb. simpl.
      by rewrite Hfp.
Qed.

(** * The claims *)

Lemma ends_known_app known pre ev post :
  ends_known known (pre ++ ev :: post) = true -> Typ ev = EvGoEnd ->
  G ev ∈ known \/ existsb (creates (G ev)) pre = true.
Proof.
  revert known. induction pre as [|e pre IH]; intros known; simpl.
  - intros Hk He. rewrite He in Hk. simpl in Hk.
    apply andb_prop in Hk as [Hk _]. left. by apply bool_decide_eq_true_1 in Hk.
  - intros Hk He. unfold creates at 1.
    destruct (Typ e =? EvGoCreate).
    + destruct (IH _ Hk He) as [Hin|Hc]; [|right; by rewrite Hc, orb_true_r].
      apply elem_of_union in Hin as [Hin|Hin]; [|by left].
      apply elem_of_singleton in Hin. right. rewrite <- Hin, Z.eqb_refl. done.
    + destruct (Typ e =? EvGoEnd).
      * apply andb_prop in Hk as [_ Hk]. by apply IH.
      * by apply IH.
Qed.

(** C1, as the code has it: a termination event whose owner no earlier
    event of the trace created makes the reconstruction panic, on the nil
    pointer that the map read [goroutines[ev.G]] yields; the event is not
    skipped. *)
Theorem events2gs_end_of_unknown_panics pre ev post h :
  Typ ev = EvGoEnd -> existsb (creates (G ev)) pre = false ->
  events2gs (pre ++ ev :: post) h = Panic.
Proof.
  intros He Hpre. pose proof (events2gs_spec (pre ++ ev :: post) h) as Hs.
  destruct (events2gs (pre ++ ev :: post) h) as [gs h'|]; [|done].
  destruct Hs as (Hk & _). destruct (ends_known_app _ _ _ _ Hk He) as [Hin|Hc].
  - by apply not_elem_of_empty in Hin.
  - congruence.
Qed.

Lemma events2gs_end_of_unknown_panics_witness :
  events2gs [end_of_unknown] ∅ = Panic.
Proof.
  apply (events2gs_end_of_unknown_panics [] end_of_unknown [] ∅); reflexivity.
Defined.

(** C7: on the empty event sequence the reconstruction returns the empty
    mapping, the filter the empty mapping and every run of the grouper
    the empty group sequence; nothing panics and the heap is untouched. *)
Theorem empty_input h :
  events2gs [] h = Done ∅ h /\
  (forall order, range_order (∅ : gmap Z loc) order -> unfinishedGs_in order h = Done ∅ h) /\
  unfinishedGs ∅ h = Done ∅ h /\
  (forall o, uniq_run ∅ h o -> o = Done [] h) /\
  uniq ∅ h = Done [] h /\
  pipeline [] h = Done [] h.
Proof.
  assert (Hnil : forall {V} (order : list (Z * V)),
            range_order (∅ : gmap Z V) order -> order = []).
  { intros V order Ho. unfold range_order in Ho. rewrite map_to_list_empty in Ho.
    by apply Permutation_nil_r in Ho. }
  assert (Hnil' : forall (order : list (string * list loc)),
            range_order (∅ : gmap string (list loc)) order -> order = []).
  { intros order Ho. unfold range_order in Ho. rewrite map_to_list_empty in Ho.
    by apply Permutation_nil_r in Ho. }
  assert (Huniq : forall o, uniq_run ∅ h o -> o = Done [] h).
  { intros o Hrun.
    destruct Hrun as [order Hord Hloop | order gm h' order' out Hord Hloop Hord' Hsort].
    - rewrite (Hnil _ _ Hord) in Hloop. discriminate.
    - rewrite (Hnil _ _ Hord) in Hloop. simpl in Hloop. injection Hloop as <- <-.
      rewrite (Hnil' _ Hord') in Hsort. destruct Hsort as [Hperm _].
      simpl in Hperm. apply Permutation_nil_r in Hperm. by subst. }
  split_and!.
  - reflexivity.
  - intros order Ho. by rewrite (Hnil _ _ Ho).
  - reflexivity.
  - exact Huniq.
  - apply Huniq, uniq_is_run.
  - change (pipeline [] h) with (uniq ∅ h). apply Huniq, uniq_is_run.
Qed.

(** C9: the filter and the grouper only read. Whatever the order of the
    visits and of the sort, the heap they return is the heap they were
    given, so every record is what it was before the call; and on a
    mapping whose pointers all lead to records they do return. *)
Theorem filter_and_grouper_read_only gs h :
  (forall order u h', unfinishedGs_in order h = Done u h' -> h' = h) /\
  (forall u h', unfinishedGs gs h = Done u h' -> h' = h) /\
  (forall out h', uniq_run gs h (Done out h') -> h' = h) /\
  (forall out h', uniq gs h = Done out h' -> h' = h) /\
  (allocated gs h ->
   (exists u, unfinishedGs gs h = Done u h) /\
   (forall o, uniq_run gs h o -> exists out, o = Done out h)).
Proof.
  split_and!.
  - intros order u h'. apply readonly_unfinishedGs_in.
  - intros u h'. apply readonly_unfinishedGs_in.
  - intros out h' Hrun. inversion Hrun as [|order gm h'' order' out' Hord Hloop Hord' Hsort]; subst.
    eapply readonly_for_range; [|exact Hloop]. apply readonly_uniq_body.
  - intros out h'. apply readonly_uniq.
  - intros Ha. split.
    + destruct (unfinishedGs_spec gs h Ha) as (u & Hu & _). eauto.
    + intros o Hrun. destruct (uniq_run_spec gs h o Ha Hrun) as (out & _ & -> & _).
      eauto.
Qed.


Lemma uniq_three :
  uniq gs_three heap_three = Done [[2; 1]; [3]]%positive heap_three.
Proof. vm_compute. reflexivity. Qed.


(** C4, as the code has it: in every run of the grouper two goroutines of
    the mapping are in the same group exactly when the MD5 digests of
    their name, last state and rendered last stack, written one after
    the other, are equal; goroutines with the same name, the same last
    state and the same rendering of the last stack are in the same
    group. *)
Theorem same_group_iff_same_digest gs h ida idb a b ra rb o :
  allocated gs h -> gs !! ida = Some a -> gs !! idb = Some b ->
  h !! a = Some ra -> h !! b = Some rb ->
  uniq_run gs h o ->
  exists out, o = Done out h /\
    (same_group out a b <-> fingerprint ra = fingerprint rb) /\
    (name ra = name rb -> lastState ra = lastState rb ->
     Stack_String (lastStack ra) = Stack_String (lastStack rb) ->
     same_group out a b).
Proof.
  intros Ha Hida Hidb Hra Hrb Hrun.
  destruct (uniq_run_spec gs h o Ha Hrun) as (out & _ & -> & _).
  exists out. split; [done|].
  pose proof (uniq_run_same_group gs h out h a b ra rb ida idb
                Ha Hrun Hida Hidb Hra Hrb) as Hiff.
  split; [exact Hiff|]. intros Hn Hs Hk. apply Hiff.
  unfold fingerprint. by rewrite Hn, Hs, Hk.
Qed.

Lemma same_group_iff_same_digest_witness :
  exists out, uniq gs_three heap_three = Done out heap_three /\
    (same_group out 1%positive 3%positive <->
     fingerprint blocked_in_Recv = fingerprint (Goroutine_lit 3 2)) /\
    (name blocked_in_Recv = name (Goroutine_lit 3 2) ->
     lastState blocked_in_Recv = lastState (Goroutine_lit 3 2) ->
     Stack_String (lastStack blocked_in_Recv) =
     Stack_String (lastStack (Goroutine_lit 3 2)) ->
     same_group out 1%positive 3%positive).
Proof.
  apply (same_group_iff_same_digest gs_three heap_three 1 3 1%positive 3%positive).
  - unfold allocated. apply (bool_decide_unpack _). vm_compute. exact I.
  - reflexivity.
  - reflexivity.
  - reflexivity.
  - reflexivity.
  - apply uniq_is_run.
Defined.

(** C4 as stated fails: the two goroutines of [trace_same_digest] end in
    one group, with different last states and different renderings of
    the last stack. *)
Lemma same_group_with_different_triples :
  pipeline trace_same_digest ∅ = Done [[2; 1]]%positive heap_same_digest /\
  heap_same_digest !! 1%positive = Some blocked_in_Recv /\
  heap_same_digest !! 2%positive = Some blocked_on_recv /\
  same_group [[2; 1]]%positive 1%positive 2%positive /\
  lastState blocked_in_Recv <> lastState blocked_on_recv /\
  Stack_String (lastStack blocked_in_Recv) <>
  Stack_String (lastStack blocked_on_recv).
Proof.
  split_and!.
  - vm_compute. reflexivity.
  - reflexivity.
  - reflexivity.
  - exists [2; 1]%positive. split_and!.
    + apply list_elem_of_here.
    + apply list_elem_of_further, list_elem_of_here.
    + apply list_elem_of_here.
  - discriminate.
  - vm_compute. discriminate.
Qed.

(** C2, as the code has it: when the reconstruction returns, a goroutine
    of the mapping whose termination events all carry a timestamp other
    than zero, and which no event creates anew after one of them, is in
    the output of the filter exactly when the trace has no termination
    event of it. The reconstruction returns when every termination event
    is owned by a goroutine created before it. *)
Theorem unfinished_iff_never_ended events h g :
  ends_known ∅ events = true ->
  ends_nonzero g events = true -> not_created_again g events = true ->
  exists gs h', events2gs events h = Done gs h' /\
    forall order, range_order gs order ->
      exists u, unfinishedGs_in order h' = Done u h' /\
        (g ∈ dom gs -> g ∈ dom u <-> existsb (ends g) events = false).
Proof.
  intros Hk Hnz Hnc.
  destruct (events2gs_Done events h Hk) as (gs & h' & Hev & Ha & Hu & Hview).
  exists gs, h'. split; [done|]. intros order Hord.
  destruct (unfinishedGs_in_spec gs h' order Ha Hord) as (u & Hrun & Hlook).
  exists u. split; [done|]. intros Hdom.
  apply elem_of_dom in Hdom as [l Hl]. destruct (Ha g l Hl) as [r Hr].
  pose proof (view_lookup_Some gs h' g l r Hl Hr) as Hv. rewrite Hview in Hv.
  apply history_inv in Hv as (r1 & Hfold & _ & _ & _ & Hd & _).
  pose proof (history1_destroy g events None false) as Hdes.
  specialize (Hdes ltac:(done) ltac:(done) Hnz Hnc r1 Hfold). simpl in Hdes.
  rewrite <- Hd in Hdes. rewrite <- Hdes, elem_of_dom. split.
  - intros [l' Hl']. apply Hlook in Hl' as [Hgl (r' & Hr' & Hd')]. congruence.
  - intros Hz. exists l. apply Hlook. split; [done|]. by exists r.
Qed.

Lemma unfinished_iff_never_ended_witness :
  exists gs h', events2gs trace_ended ∅ = Done gs h' /\
    forall order, range_order gs order ->
      exists u, unfinishedGs_in order h' = Done u h' /\
        (2 ∈ dom gs -> 2 ∈ dom u <-> existsb (ends 2) trace_ended = false).
Proof.
  apply (unfinished_iff_never_ended trace_ended ∅ 2); reflexivity.
Defined.

(** C2 as stated fails: in [trace_ended_at_zero] goroutine 1 has a
    termination event, at time 0, and is in the output of the filter. *)
Lemma unfinished_with_termination_event :
  exists gs h u,
    events2gs trace_ended_at_zero ∅ = Done gs h /\
    unfinishedGs gs h = Done u h /\
    gs !! 1 = Some 1%positive /\ u !! 1 = Some 1%positive /\
    existsb (ends 1) trace_ended_at_zero = true.
Proof.
  do 3 eexists. split_and!.
  - vm_compute. reflexivity.
  - vm_compute. reflexivity.
  - reflexivity.
  - reflexivity.
  - reflexivity.
Qed.

(** C3, as the code has it: when the reconstruction returns, a goroutine
    is in the mapping exactly when some event created it; and if it is in
    the mapping and no event creates it anew after the last event it
    owns, its last state is the display name of the kind of that event
    and its last stack the stack of that event. *)
Theorem last_event_decides_state pre ev post h g :
  ends_known ∅ (pre ++ ev :: post) = true ->
  owns g ev = true ->
  existsb (owns g) post = false -> existsb (creates g) post = false ->
  exists gs h', events2gs (pre ++ ev :: post) h = Done gs h' /\
    (g ∈ dom gs <-> existsb (creates g) (pre ++ [ev]) = true) /\
    forall r, view gs h' !! g = Some r ->
              lastState r = state_name (Typ ev) /\ lastStack r = Stk ev.
Proof.
  intros Hk Ho Hpo Hpc.
  destruct (events2gs_Done _ h Hk) as (gs & h' & Hev & Ha & Hu & Hview).
  exists gs, h'. split; [done|]. split.
  - rewrite <- (view_dom gs h') by done. rewrite elem_of_dom, Hview, history_created.
    rewrite !existsb_app. simpl. by rewrite Hpc, !orb_false_r.
  - intros r Hr. rewrite Hview in Hr.
    apply history_inv in Hr as (r1 & Hfold & _ & _ & _ & _ & Hstk & Hst).
    rewrite Hstk, Hst. by eapply history1_last.
Qed.

Lemma last_event_decides_state_witness :
  exists gs h', events2gs trace_blocked ∅ = Done gs h' /\
    (1 ∈ dom gs <->
     existsb (creates 1) (take 2 trace_blocked ++ [mkEvent 23 5 1 [run_main] (0, 0, 0) None])
     = true) /\
    forall r, view gs h' !! 1 = Some r ->
              lastState r = "EvGoBlockRecv" /\ lastStack r = [run_main].
Proof.
  apply (last_event_decides_state (take 2 trace_blocked)
           (mkEvent 23 5 1 [run_main] (0, 0, 0) None) [] ∅ 1); reflexivity.
Defined.

(** C3 as stated fails: goroutine 7 owns the event of the trace
    [[start_of_unknown]] and is not in the mapping, which is empty. *)
Lemma owner_missing_from_mapping :
  owns 7 start_of_unknown = true /\
  events2gs [start_of_unknown] ∅ = Done ∅ ∅.
Proof. split; reflexivity. Qed.

(** When the reconstruction returns, the child that the last creation
    event linking to it finds in the mapping has the owner of that event
    as parent and its stack as parent stack; and the second pass steps
    over a creation event whose linked owner is not in the mapping,
    changing neither the mapping nor the heap. *)
Lemma parent_linkage_last pre ev post h c :
  ends_known ∅ (pre ++ ev :: post) = true ->
  links c ev = true -> existsb (links c) post = false ->
  (exists gs h', events2gs (pre ++ ev :: post) h = Done gs h' /\
     forall r, view gs h' !! c = Some r ->
               ParentID r = G ev /\ parentStack r = Stk ev) /\
  (forall gs h0, gs !! c = None -> events2gs_pass2 gs ev h0 = Done gs h0).
Proof.
  intros Hk Hl Hpost. split.
  - destruct (events2gs_Done _ h Hk) as (gs & h' & Hev & Ha & Hu & Hview).
    exists gs, h'. split; [done|]. intros r Hr. rewrite Hview in Hr.
    unfold history in Hr. by eapply history2_last.
  - intros gs h0 Hc. unfold events2gs_pass2. unfold links in Hl.
    apply andb_prop in Hl as [Ht Hlink]. rewrite Ht. cbn [negb orb].
    destruct (Link ev) as [link|]; [|done].
    rewrite bool_decide_eq_false_2 by done.
    apply Z.eqb_eq in Hlink. by rewrite Hlink, Hc.
Qed.





(** C8, as the code has it: when the reconstruction returns, the name of
    a goroutine is the function name of the innermost frame of the first
    event, from its last creation event on, that it owns with a stack
    that is not empty and an innermost function name that is not empty;
    with no such event the name is empty. A name that is not empty is
    never overwritten. *)
Theorem name_from_first_named_stack pre c post h g :
  ends_known ∅ (pre ++ c :: post) = true ->
  creates g c = true -> existsb (creates g) post = false ->
  exists gs h' r, events2gs (pre ++ c :: post) h = Done gs h' /\
    view gs h' !! g = Some r /\
    (existsb (gives_name g) (c :: post) = false -> name r = "") /\
    (forall l1 ev l2 frame,
       c :: post = (l1 ++ ev :: l2)%list ->
       existsb (gives_name g) l1 = false -> gives_name g ev = true ->
       Stk ev !! 0%nat = Some frame -> name r = Fn frame) /\
    (forall ev r0, name r0 <> "" -> name (observe ev r0) = name r0).
Proof.
  intros Hk Hc Hpost.
  destruct (events2gs_Done _ h Hk) as (gs & h' & Hev & Ha & Hu & Hview).
  assert (Hsome : is_Some (history g (pre ++ c :: post))).
  { apply history_created. rewrite existsb_app. simpl. by rewrite Hc, orb_true_r. }
  destruct Hsome as [r Hr]. exists gs, h', r. split; [done|].
  split; [by rewrite Hview|].
  apply history_inv in Hr as (r1 & Hfold & _ & -> & _).
  rewrite fold_left_app in Hfold. simpl in Hfold.
  set (o := fold_left (history1_step g) pre None) in Hfold. clearbody o.
  unfold history1_step at 2 in Hfold. rewrite Hc in Hfold.
  set (lit := Goroutine_lit g (Ts c)) in Hfold.
  assert (Hlit : name lit = "") by done.
  split_and!.
  - simpl. intros Hg. apply orb_false_elim in Hg as [Hgc Hgp].
    destruct (owns g c) eqn:Ho; simpl in Hfold.
    + eapply history1_fold_unnamed; [done| |done|exact Hfold].
      by apply (observe_unnamed g).
    + by eapply history1_fold_unnamed.
  - intros l1 ev l2 frame Hsplit Hg1 Hg Hf.
    destruct l1 as [|c' l1]; simpl in Hsplit; injection Hsplit as <- ->.
    + assert (Ho : owns g c = true).
      { unfold gives_name in Hg. by apply andb_prop in Hg as [? _]. }
      rewrite Ho in Hfold. simpl in Hfold.
      destruct (observe_gives_name g c lit frame) as [Hname Hne]; try done.
      apply history1_fold_named in Hfold; try done; by rewrite ?Hfold, ?Hname.
    + simpl in Hg1. apply orb_false_elim in Hg1 as [Hgc Hg1].
      destruct (owns g c) eqn:Ho; simpl in Hfold.
      * eapply history1_fold_first_name; [done| |done..|exact Hfold].
        by apply (observe_unnamed g).
      * by eapply history1_fold_first_name.
  - intros ev r0. apply observe_named.
Qed.

Lemma name_from_first_named_stack_witness :
  exists gs h' r, events2gs trace_blocked ∅ = Done gs h' /\
    view gs h' !! 1 = Some r /\
    (existsb (gives_name 1) trace_blocked = false -> name r = "") /\
    (forall l1 ev l2 frame,
       trace_blocked = (l1 ++ ev :: l2)%list ->
       existsb (gives_name 1) l1 = false -> gives_name 1 ev = true ->
       Stk ev !! 0%nat = Some frame -> name r = Fn frame) /\
    (forall ev r0, name r0 <> "" -> name (observe ev r0) = name r0).
Proof.
  apply (name_from_first_named_stack [] (mkEvent 13 0 0 [] (1, 0, 0) None)
           (drop 1 trace_blocked) ∅ 1); reflexivity.
Defined.

(** C8 as stated fails: in [trace_unnamed_frame] the first stack of
    goroutine 1 that is not empty has an innermost frame without a
    function name, and the goroutine is named after a later event. *)
Lemma name_from_a_later_stack :
  exists gs h r,
    events2gs trace_unnamed_frame ∅ = Done gs h /\
    view gs h !! 1 = Some r /\
    first_stack 1 trace_unnamed_frame = Some [recv_unnamed] /\
    Fn recv_unnamed = "" /\ name r = "main.run".
Proof.
  do 3 eexists. split_and!.
  - vm_compute. reflexivity.
  - vm_compute. reflexivity.
  - reflexivity.
  - reflexivity.
  - reflexivity.
Qed.

Lemma never_scheduled_split g events :
  never_scheduled g events = true ->
  exists pre c post, events = (pre ++ c :: post)%list /\ creates g c = true /\
                     owns g c = false /\ existsb (owns g) post = false.
Proof.
  induction events as [|ev events IH]; simpl; [done|].
  intros Hn. apply orb_prop in Hn as [Hn|Hn].
  - apply andb_prop in Hn as [Hn Hp]. apply andb_prop in Hn as [Hc Ho].
    apply negb_true_iff in Hp, Ho. by exists [], ev, events.
  - destruct (IH Hn) as (pre & c & post & -> & Hc & Ho & Hp).
    by exists (ev :: pre), c, post.
Qed.

Lemma history1_step_created g o c :
  creates g c = true -> owns g c = false ->
  history1_step g o c = Some (Goroutine_lit g (Ts c)).
Proof. intros Hc Ho. unfold history1_step. by rewrite Hc, Ho. Qed.

(** A goroutine that does not own its creation event, nor any event
    after it, ends the reconstruction as its creation left it, up to the
    parent linkage. *)
Lemma history_never_scheduled g events :
  never_scheduled g events = true ->
  exists r, history g events = Some r /\
            name r = "" /\ lastState r = "" /\ lastStack r = [] /\ destroy r = 0.
Proof.
  intros Hn. destruct (never_scheduled_split g events Hn)
    as (pre & c & post & -> & Hc & Ho & Hp).
  unfold history. rewrite (fold_left_app (history1_step g) pre).
  cbn [fold_left].
  rewrite (history1_step_created g _ c Hc Ho).
  destruct (history1_fold_fresh g post (Ts c) Hp) as [ts ->].
  destruct (history2_fold_Some g (pre ++ c :: post) (Goroutine_lit g ts))
    as (pid & pst & ->).
  eexists. split; [reflexivity|]. done.
Qed.

(** C10, as the code has it: a goroutine with a creation event that it
    does not own, and that owns no event after it, ends the
    reconstruction with an empty name, an empty last state and an empty
    last stack, and is unfinished; two such goroutines are in the same
    group in every run of the grouper on the output of the filter. *)
Theorem never_scheduled_share_group events h g1 g2 :
  ends_known ∅ events = true ->
  never_scheduled g1 events = true -> never_scheduled g2 events = true ->
  exists gs h' l1 l2 r1 r2,
    events2gs events h = Done gs h' /\
    gs !! g1 = Some l1 /\ h' !! l1 = Some r1 /\
    gs !! g2 = Some l2 /\ h' !! l2 = Some r2 /\
    (name r1 = "" /\ lastState r1 = "" /\ lastStack r1 = []) /\
    (name r2 = "" /\ lastState r2 = "" /\ lastStack r2 = []) /\
    forall order, range_order gs order ->
      exists u, unfinishedGs_in order h' = Done u h' /\
        u !! g1 = Some l1 /\ u !! g2 = Some l2 /\
        forall o, uniq_run u h' o ->
                  exists out, o = Done out h' /\ same_group out l1 l2.
Proof.
  intros Hk Hn1 Hn2.
  destruct (events2gs_Done events h Hk) as (gs & h' & Hev & Ha & Hu & Hview).
  destruct (history_never_scheduled g1 events Hn1) as (r1 & Hr1 & Hname1 & Hst1 & Hstk1 & Hd1).
  destruct (history_never_scheduled g2 events Hn2) as (r2 & Hr2 & Hname2 & Hst2 & Hstk2 & Hd2).
  rewrite <- Hview in Hr1, Hr2. rewrite view_lookup in Hr1, Hr2.
  apply bind_Some in Hr1 as (l1 & Hl1 & Hh1). apply bind_Some in Hr2 as (l2 & Hl2 & Hh2).
  exists gs, h', l1, l2, r1, r2. split_and!; try done.
  intros order Hord.
  destruct (unfinishedGs_in_spec gs h' order Ha Hord) as (u & Hrun & Hlook).
  exists u. split; [done|].
  assert (Hu1 : u !! g1 = Some l1) by (apply Hlook; split; [done|]; by exists r1).
  assert (Hu2 : u !! g2 = Some l2) by (apply Hlook; split; [done|]; by exists r2).
  split; [done|]. split; [done|]. intros o Ho.
  pose proof (unfinished_allocated gs h' u Ha Hlook) as Hua.
  destruct (uniq_run_spec u h' o Hua Ho) as (out & _ & -> & _).
  exists out. split; [done|].
  apply (uniq_run_same_group u h' out h' l1 l2 r1 r2 g1 g2); try done.
  unfold fingerprint. by rewrite Hname1, Hname2, Hst1, Hst2, Hstk1, Hstk2.
Qed.

Lemma never_scheduled_share_group_witness :
  exists gs h' l1 l2 r1 r2,
    events2gs trace_never_scheduled ∅ = Done gs h' /\
    gs !! 1 = Some l1 /\ h' !! l1 = Some r1 /\
    gs !! 2 = Some l2 /\ h' !! l2 = Some r2 /\
    (name r1 = "" /\ lastState r1 = "" /\ lastStack r1 = []) /\
    (name r2 = "" /\ lastState r2 = "" /\ lastStack r2 = []) /\
    forall order, range_order gs order ->
      exists u, unfinishedGs_in order h' = Done u h' /\
        u !! 1 = Some l1 /\ u !! 2 = Some l2 /\
        forall o, uniq_run u h' o ->
                  exists out, o = Done out h' /\ same_group out l1 l2.
Proof.
  apply (never_scheduled_share_group trace_never_scheduled ∅ 1 2); reflexivity.
Defined.

(** C10 as stated fails: in the trace [[creation_by_itself]] goroutine 1
    has a creation event and owns no event after it, and its last state
    is the display name of the creation event, which it owns. *)
Lemma created_by_itself_has_a_state :
  exists gs h r,
    events2gs [creation_by_itself] ∅ = Done gs h /\
    view gs h !! 1 = Some r /\
    creates 1 creation_by_itself = true /\
    lastState r = "EvGoCreate".
Proof.
  do 3 eexists. split_and!.
  - vm_compute. reflexivity.
  - vm_compute. reflexivity.
  - reflexivity.
  - reflexivity.
Qed.

(** * Checks of the embedding on known values *)

(** The MD5 test suite of RFC 1321, and messages around the padding
    boundary of one block. *)
Example md5_empty : MD5.hexdigest "" = "d41d8cd98f00b204e9800998ecf8427e".
Proof. vm_compute. reflexivity. Qed.
Example md5_abc : MD5.hexdigest "abc" = "900150983cd24fb0d6963f7d28e17f72".
Proof. vm_compute. reflexivity. Qed.
Example md5_digits : MD5.hexdigest "12345678901234567890123456789012345678901234567890123456789012345678901234567890" = "57edf4a22be3c955ac49da2e2107b67a".
Proof. vm_compute. reflexivity. Qed.
Example md5_main_worker : MD5.hexdigest "main.worker" = "88bbda7ec4f7277727d567bfbecc1336".
Proof. vm_compute. reflexivity. Qed.
Example md5_55_bytes : MD5.hexdigest "aaaaaaaaaaaaaaaaaaaaaaaaaaaaaaaaaaaaaaaaaaaaaaaaaaaaaaa" = "ef1772b6dff9a122358552954ad0df65".
Proof. vm_compute. reflexivity. Qed.
Example md5_56_bytes : MD5.hexdigest "aaaaaaaaaaaaaaaaaaaaaaaaaaaaaaaaaaaaaaaaaaaaaaaaaaaaaaaa" = "3b0c8ac703f828b04c6c197006d17218".
Proof. vm_compute. reflexivity. Qed.
Example md5_64_bytes : MD5.hexdigest "aaaaaaaaaaaaaaaaaaaaaaaaaaaaaaaaaaaaaaaaaaaaaaaaaaaaaaaaaaaaaaaa" = "014842d480b571495a4a0363793f7367".
Proof. vm_compute. reflexivity. Qed.

(** The rendering of a stack: one frame per line, no newline at the end. *)
Example Stack_String_two_frames :
  Stack_String [run_main; recv_named] = "main.run [main.go:12]
Recv [f.go:1]".
Proof. reflexivity. Qed.

Example Stack_String_nil : Stack_String [] = "".
Proof. reflexivity. Qed.

Example state_name_known : state_name 23 = "EvGoBlockRecv".
Proof. reflexivity. Qed.

Example state_name_unknown : state_name 38 = "".
Proof. reflexivity. Qed.

(** A goroutine blocked on a receive and never ended: one unfinished
    goroutine, one group of one. *)
Example pipeline_blocked :
  exists h, pipeline trace_blocked ∅ = Done [[1%positive]] h /\
            h !! 1%positive
            = Some (mkGoroutine 1 0 [] "main.run" 0 0 [run_main] "EvGoBlockRecv").
Proof. eexists. split; vm_compute; reflexivity. Qed.

(** A goroutine created at time 1 and ended at time 2 is in the mapping
    with that termination time, and in no group. *)
Example pipeline_ended :
  exists gs h, events2gs trace_ended ∅ = Done gs h /\
               view gs h !! 2 = Some (mkGoroutine 2 0 [] "" 1 2 [] "EvGoEnd") /\
               pipeline trace_ended ∅ = Done [] h.
Proof. do 2 eexists. split_and!; vm_compute; reflexivity. Qed.

(** A creation event that links to a goroutine no event creates: no
    panic, and no linkage. *)
Example events2gs_missing_child :
  exists gs h,
    events2gs [mkEvent 13 0 5 [run_main] (8, 0, 0) (Some start_of_3)] ∅ = Done gs h /\
    view gs h = {[ 8 := Goroutine_lit 8 0 ]}.
Proof. do 2 eexists. split; vm_compute; reflexivity. Qed.

(** * Further properties of the reconstruction *)

Lemma ends_known_intro events : forall known,
  (forall pre ev post, events = (pre ++ ev :: post)%list -> Typ ev = EvGoEnd ->
                       G ev ∈ known \/ existsb (creates (G ev)) pre = true) ->
  ends_known known events = true.
Proof.
  induction events as [|e events IH]; intros known Hall; simpl; [done|].
  assert (Hrest : forall known',
            (Typ e = EvGoCreate -> Args0 e ∈ known') -> known ⊆ known' ->
            ends_known known' events = true).
  { intros known' Hc Hsub. apply IH. intros pre ev post -> Hend.
    destruct (Hall (e :: pre) ev post eq_refl Hend) as [Hin|Hex].
    - left. by apply Hsub.
    - simpl in Hex. apply orb_prop in Hex as [Hex|Hex]; [|by right].
      unfold creates in Hex. apply andb_prop in Hex as [Ht Ha].
      apply Z.eqb_eq in Ht, Ha. left. rewrite <- Ha. by apply Hc. }
  destruct (Z.eqb_spec (Typ e) EvGoCreate) as [Hc|Hc].
  - apply Hrest; [intros _|]; set_solver.
  - destruct (Z.eqb_spec (Typ e) EvGoEnd) as [He|He].
    + apply andb_true_intro. split.
      * apply bool_decide_eq_true_2.
        by destruct (Hall [] e events eq_refl He) as [Hin|Hex].
      * by apply Hrest.
    + by apply Hrest.
Qed.

(** The reconstruction returns exactly on the traces in which every
    termination event is owned by a goroutine that an earlier event
    created; on every other trace it panics. *)
Theorem events2gs_returns_iff events h :
  ((exists gs h', events2gs events h = Done gs h') <->
   forall pre ev post, events = (pre ++ ev :: post)%list -> Typ ev = EvGoEnd ->
                       existsb (creates (G ev)) pre = true) /\
  (events2gs events h = Panic <->
   exists pre ev post, events = (pre ++ ev :: post)%list /\ Typ ev = EvGoEnd /\
                       existsb (creates (G ev)) pre = false).
Proof.
  pose proof (events2gs_spec events h) as Hs.
  assert (Hdecl : ends_known ∅ events = true <->
            forall pre ev post, events = (pre ++ ev :: post)%list -> Typ ev = EvGoEnd ->
                                existsb (creates (G ev)) pre = true).
  { split.
    - intros Hk pre ev post -> He.
      destruct (ends_known_app _ _ _ _ Hk He) as [Hin|Hc]; [|done].
      by apply not_elem_of_empty in Hin.
    - intros Hall. apply ends_known_intro. intros pre ev post Heq He. right. eauto. }
  split.
  - rewrite <- Hdecl. destruct (events2gs events h) as [gs h'|].
    + destruct Hs as (Hk & _). split; [done | eauto].
    + split; [intros (gs & h' & ?); done | congruence].
  - split.
    + intros Hp. rewrite Hp in Hs.
      assert (Hex : ~ forall pre ev post, events = (pre ++ ev :: post)%list ->
                      Typ ev = EvGoEnd -> existsb (creates (G ev)) pre = true).
      { rewrite <- Hdecl. congruence. }
      clear -Hex. induction events as [|e events IH] using rev_ind.
      * destruct Hex. intros pre ev post Heq. by destruct pre.
      * destruct (decide (Typ e = EvGoEnd /\ existsb (creates (G e)) events = false))
          as [[He Hc]|Hn].
        -- exists events, e, []. done.
        -- destruct IH as (pre & ev & post & -> & He & Hc).
           ++ intros Hall. apply Hex. intros pre ev post Heq Hend.
              destruct (decide (post = [])) as [->|Hpost].
              ** apply app_inj_tail in Heq as [<- <-].
                 destruct (existsb (creates (G e)) events) eqn:Hc; [done|].
                 destruct Hn. done.
              ** destruct (exists_last Hpost) as (post' & e' & ->).
                 rewrite app_comm_cons, app_assoc in Heq.
                 apply app_inj_tail in Heq as [-> <-]. by eapply Hall.
           ++ exists pre, ev, (post ++ [e])%list. by rewrite <- app_assoc.
    + intros (pre & ev & post & Heq & He & Hc).
      destruct (events2gs events h) as [gs h'|]; [|done].
      destruct Hs as (Hk & _). pose proof (proj1 Hdecl Hk) as Hall.
      rewrite (Hall pre ev post Heq He) in Hc. discriminate.
Qed.

Lemma existsb_false_elem {A} (f : A -> bool) (l : list A) x :
  existsb f l = false -> x ∈ l -> f x = false.
Proof.
  induction l as [|y l IH]; simpl; intros Hf Hx; [by apply elem_of_nil in Hx|].
  apply orb_false_elim in Hf as [Hy Hl].
  apply elem_of_cons in Hx as [->|Hx]; [done | by apply IH].
Qed.

(** A property of records that creations establish and terminations and
    observations keep holds of the record the first pass ends with. *)
Lemma history1_fold_inv g (P : Goroutine -> Prop) events :
  (forall ev r, P r -> P (observe ev r)) ->
  (forall ev, ev ∈ events -> creates g ev = true -> P (Goroutine_lit g (Ts ev))) ->
  (forall ev r, ev ∈ events -> ends g ev = true -> P r -> P (set_destroy (Ts ev) r)) ->
  forall o, (forall r, o = Some r -> P r) ->
  forall r', fold_left (history1_step g) events o = Some r' -> P r'.
Proof.
  intros Hobs. induction events as [|ev events IH]; intros Hcre Hend o Ho r'; simpl.
  - apply Ho.
  - apply IH.
    + intros ev' Hin. apply Hcre. by right.
    + intros ev' r Hin. apply Hend. by right.
    + intros r. unfold history1_step.
      assert (Hsw : forall r1,
                (if creates g ev then Some (Goroutine_lit g (Ts ev))
                 else if ends g ev then set_destroy (Ts ev) <$> o else o) = Some r1 ->
                P r1).
      { intros r1. destruct (creates g ev) eqn:Hc.
        - intros [= <-]. apply Hcre; [by left | done].
        - destruct (ends g ev) eqn:He; [|apply Ho].
          destruct o as [r0|]; simpl; [|done]. intros [= <-].
          apply Hend; [by left | done | by apply Ho]. }
      destruct (if creates g ev then _ else _) as [r1|]; simpl.
      * destruct (owns g ev); simpl; intros [= <-]; [apply Hobs|]; by apply Hsw.
      * by destruct (owns g ev).
Qed.

Lemma history2_fold_other g events o :
  existsb (links g) events = false ->
  fold_left (history2_step g) events o = o.
Proof.
  revert o. induction events as [|ev events IH]; intros o Hl; simpl; [done|].
  simpl in Hl. apply orb_false_elim in Hl as [He Hl].
  unfold history2_step at 2. rewrite He. by apply IH.
Qed.

Lemma fold_left_filter {A B} (f : B -> A -> B) (P : A -> bool) l :
  (forall b x, P x = false -> f b x = b) ->
  forall b, fold_left f (List.filter P l) b = fold_left f l b.
Proof.
  intros Hf. induction l as [|x l IH]; intros b; simpl; [done|].
  destruct (P x) eqn:HP; simpl; [apply IH|]. rewrite Hf by done. apply IH.
Qed.

Lemma concerns_false g ev :
  concerns g ev = false ->
  creates g ev = false /\ owns g ev = false /\ links g ev = false.
Proof.
  unfold concerns. intros H. apply orb_false_elim in H as [H Hl].
  by apply orb_false_elim in H as [Hc Ho].
Qed.

(** The record of a goroutine depends on the events that concern it only. *)
Lemma history_filter g events :
  history g (List.filter (concerns g) events) = history g events.
Proof.
  unfold history. rewrite !fold_left_filter; [done| |].
  - intros o ev Hc. apply concerns_false in Hc as (Hc & Ho & _).
    by apply history1_step_other.
  - intros o ev Hc. apply concerns_false in Hc as (_ & _ & Hl).
    unfold history2_step. by rewrite Hl.
Qed.

Lemma ends_known_filter g events : forall known known',
  (g ∈ known -> g ∈ known') ->
  ends_known known events = true ->
  ends_known known' (List.filter (concerns g) events) = true.
Proof.
  induction events as [|ev events IH]; intros known known' Hsub; simpl; [done|].
  unfold concerns, creates, owns, links.
  destruct (Z.eqb_spec (Typ ev) EvGoCreate) as [Hc|Hc]; cbn [andb orb].
  - intros Hk.
    assert (Hkept : ends_known ({[Args0 ev]} ∪ known')
                      (List.filter (concerns g) events) = true).
    { eapply IH; [|exact Hk]. intros Hin.
      apply elem_of_union in Hin as [Hin|Hin]; apply elem_of_union; auto. }
    destruct ((Args0 ev =? g) || (G ev =? g) || _) eqn:Hkeep.
    + simpl. apply Z.eqb_eq in Hc. by rewrite Hc.
    + apply orb_false_elim in Hkeep as [Hkeep _].
      apply orb_false_elim in Hkeep as [Ha _]. apply Z.eqb_neq in Ha.
      eapply IH; [|exact Hk]. intros Hin.
      apply elem_of_union in Hin as [Hin|Hin]; [|by apply Hsub].
      apply elem_of_singleton in Hin. congruence.
  - destruct (Z.eqb_spec (Typ ev) EvGoEnd) as [He|He].
    + intros Hk. apply andb_prop in Hk as [Hin Hk].
      apply bool_decide_eq_true_1 in Hin. rewrite orb_false_r.
      destruct (Z.eqb_spec (G ev) g) as [Hg|Hg]; simpl.
      * apply Z.eqb_neq in Hc. rewrite Hc. apply Z.eqb_eq in He. rewrite He.
        apply andb_true_intro. split; [|by eapply IH].
        apply bool_decide_eq_true_2. rewrite Hg in *. by apply Hsub.
      * by eapply IH.
    + intros Hk. rewrite orb_false_r.
      destruct (Z.eqb_spec (G ev) g) as [Hg|Hg]; simpl.
      * apply Z.eqb_neq in Hc, He. rewrite Hc, He. by eapply IH.
      * by eapply IH.
Qed.

(** When the reconstruction returns, the mapping holds exactly the
    identifiers that creation events carry as their first argument, each
    with a record of its own. *)
Theorem events2gs_domain events h :
  ends_known ∅ events = true ->
  exists gs h', events2gs events h = Done gs h' /\
    (forall g, g ∈ dom gs <-> existsb (creates g) events = true) /\
    (forall g l, gs !! g = Some l -> is_Some (h' !! l)) /\
    (forall g1 g2 l, gs !! g1 = Some l -> gs !! g2 = Some l -> g1 = g2).
Proof.
  intros Hk.
  destruct (events2gs_Done events h Hk) as (gs & h' & Hev & Ha & Hu & Hview).
  exists gs, h'. split; [done|]. split_and!; [|done..].
  intros g. rewrite <- (view_dom gs h') by done.
  by rewrite elem_of_dom, Hview, history_created.
Qed.

Lemma events2gs_domain_witness :
  exists gs h', events2gs trace_mixed ∅ = Done gs h' /\
    (forall g, g ∈ dom gs <-> existsb (creates g) trace_mixed = true) /\
    (forall g l, gs !! g = Some l -> is_Some (h' !! l)) /\
    (forall g1 g2 l, gs !! g1 = Some l -> gs !! g2 = Some l -> g1 = g2).
Proof. apply (events2gs_domain trace_mixed ∅). reflexivity. Defined.

Lemma observe_destroy ev r : destroy (observe ev r) = destroy r.
Proof. by destruct (observe_fields ev r) as (_ & _ & -> & _). Qed.

Lemma observe_create ev r : create (observe ev r) = create r.
Proof. by destruct (observe_fields ev r) as (_ & -> & _). Qed.

Lemma observe_ID ev r : ID (observe ev r) = ID r.
Proof. by destruct (observe_fields ev r) as (-> & _). Qed.

(** When the reconstruction returns, the record of a goroutine carries
    the goroutine's identifier and, as creation time, the timestamp of
    the last event that created it. *)
Theorem events2gs_identity pre c post h g :
  ends_known ∅ (pre ++ c :: post) = true ->
  creates g c = true -> existsb (creates g) post = false ->
  exists gs h' r, events2gs (pre ++ c :: post) h = Done gs h' /\
    view gs h' !! g = Some r /\ ID r = g /\ create r = Ts c.
Proof.
  intros Hk Hc Hpost.
  destruct (events2gs_Done _ h Hk) as (gs & h' & Hev & Ha & Hu & Hview).
  assert (Hsome : is_Some (history g (pre ++ c :: post))).
  { apply history_created. rewrite existsb_app. simpl. by rewrite Hc, orb_true_r. }
  destruct Hsome as [r Hr]. exists gs, h', r. split; [done|].
  split; [by rewrite Hview|].
  apply history_inv in Hr as (r1 & Hfold & -> & _ & -> & _). split.
  - revert Hfold. apply (history1_fold_inv g (fun r => ID r = g)); try done.
    intros ev r0. by rewrite observe_ID.
  - rewrite fold_left_app in Hfold. simpl in Hfold. revert Hfold.
    apply (history1_fold_inv g (fun r => create r = Ts c)).
    + intros ev r0. by rewrite observe_create.
    + intros ev Hin Hcre. by rewrite (existsb_false_elem _ _ _ Hpost Hin) in Hcre.
    + done.
    + intros r0. unfold history1_step. rewrite Hc.
      destruct (owns g c); simpl; intros [= <-]; by rewrite ?observe_create.
Qed.

Lemma events2gs_identity_witness :
  exists gs h' r, events2gs trace_ended ∅ = Done gs h' /\
    view gs h' !! 2 = Some r /\ ID r = 2 /\ create r = 1.
Proof.
  apply (events2gs_identity [] (mkEvent 13 1 0 [] (2, 0, 0) None)
           [mkEvent 15 2 2 [] (0, 0, 0) None] ∅ 2); reflexivity.
Defined.

(** When the reconstruction returns, the termination time of a goroutine
    is the timestamp of its last termination event, and zero when its
    last creation event comes after all of them. *)
Theorem events2gs_destroy pre ev post h g :
  ends_known ∅ (pre ++ ev :: post) = true ->
  creates g ev || ends g ev = true ->
  existsb (creates g) post = false -> existsb (ends g) post = false ->
  exists gs h' r, events2gs (pre ++ ev :: post) h = Done gs h' /\
    view gs h' !! g = Some r /\
    destroy r = if ends g ev then Ts ev else 0.
Proof.
  intros Hk Hev Hpc Hpe.
  destruct (events2gs_Done _ h Hk) as (gs & h' & Hrun & Ha & Hu & Hview).
  assert (Hcreated : existsb (creates g) (pre ++ [ev]) = true).
  { rewrite existsb_app. simpl. rewrite orb_false_r.
    destruct (creates g ev) eqn:Hc; [by rewrite orb_true_r|].
    simpl in Hev. rewrite orb_false_r.
    assert (He : Typ ev = EvGoEnd /\ G ev = g).
    { unfold ends in Hev. apply andb_prop in Hev as [Ht Hg].
      by apply Z.eqb_eq in Ht, Hg. }
    destruct He as [Ht Hg].
    destruct (ends_known_app _ _ _ _ Hk Ht) as [Hin|Hex].
    - by apply not_elem_of_empty in Hin.
    - by rewrite <- Hg. }
  assert (Hsome : is_Some (history g (pre ++ ev :: post))).
  { apply history_created. rewrite existsb_app in *. simpl in *.
    rewrite orb_false_r in Hcreated. by rewrite Hpc, orb_false_r. }
  destruct Hsome as [r Hr]. exists gs, h', r. split; [done|].
  split; [by rewrite Hview|].
  apply history_inv in Hr as (r1 & Hfold & _ & _ & _ & -> & _).
  rewrite fold_left_app in Hfold. simpl in Hfold. revert Hfold.
  apply (history1_fold_inv g (fun r => destroy r = if ends g ev then Ts ev else 0)).
  - intros e r0. by rewrite observe_destroy.
  - intros e Hin Hcre. by rewrite (existsb_false_elem _ _ _ Hpc Hin) in Hcre.
  - intros e r0 Hin Hend. by rewrite (existsb_false_elem _ _ _ Hpe Hin) in Hend.
  - generalize (fold_left (history1_step g) pre None). intros o r0.
    unfold history1_step. destruct (creates g ev) eqn:Hc.
    + assert (ends g ev = false) as ->.
      { unfold creates, ends in *. apply andb_prop in Hc as [Hc _].
        apply Z.eqb_eq in Hc. by rewrite Hc. }
      destruct (owns g ev); simpl; intros [= <-]; by rewrite ?observe_destroy.
    + simpl in Hev. rewrite Hev.
      destruct o as [r2|];
        destruct (owns g ev); simpl; intros [= <-]; by rewrite ?observe_destroy.
Qed.

Lemma events2gs_destroy_witness :
  exists gs h' r, events2gs trace_ended ∅ = Done gs h' /\
    view gs h' !! 2 = Some r /\ destroy r = 2.
Proof.
  apply (events2gs_destroy [mkEvent 13 1 0 [] (2, 0, 0) None]
           (mkEvent 15 2 2 [] (0, 0, 0) None) [] ∅ 2); reflexivity.
Defined.

(** When the reconstruction returns, a goroutine to whose events no
    creation event links has no parent: its parent identifier is zero
    and its parent stack is nil. *)
Theorem events2gs_no_parent events h g :
  ends_known ∅ events = true -> existsb (links g) events = false ->
  exists gs h', events2gs events h = Done gs h' /\
    forall r, view gs h' !! g = Some r -> ParentID r = 0 /\ parentStack r = [].
Proof.
  intros Hk Hl.
  destruct (events2gs_Done _ h Hk) as (gs & h' & Hrun & Ha & Hu & Hview).
  exists gs, h'. split; [done|]. intros r. rewrite Hview. unfold history.
  rewrite history2_fold_other by done.
  apply (history1_fold_inv g (fun r => ParentID r = 0 /\ parentStack r = [])); try done.
  intros ev r0 [Hp Hs].
  by destruct (observe_fields ev r0) as (_ & _ & _ & -> & ->).
Qed.

Lemma events2gs_no_parent_witness :
  exists gs h', events2gs trace_linked ∅ = Done gs h' /\
    forall r, view gs h' !! 5 = Some r -> ParentID r = 0 /\ parentStack r = [].
Proof. apply (events2gs_no_parent trace_linked ∅ 5); reflexivity. Defined.

(** The record of a goroutine depends only on the events that create it,
    that it owns, or that are creation events linking to it: on the
    trace without the other events the reconstruction returns as well,
    with the same record for this goroutine. *)
Theorem events2gs_local events h g :
  ends_known ∅ events = true ->
  exists gs h1 gs' h1',
    events2gs events h = Done gs h1 /\
    events2gs (List.filter (concerns g) events) h = Done gs' h1' /\
    view gs' h1' !! g = view gs h1 !! g.
Proof.
  intros Hk.
  destruct (events2gs_Done _ h Hk) as (gs & h1 & Hrun & _ & _ & Hview).
  assert (Hk' : ends_known ∅ (List.filter (concerns g) events) = true).
  { by eapply ends_known_filter. }
  destruct (events2gs_Done _ h Hk') as (gs' & h1' & Hrun' & _ & _ & Hview').
  exists gs, h1, gs', h1'. split_and!; [done..|].
  by rewrite Hview, Hview', history_filter.
Qed.

Lemma events2gs_local_witness :
  exists gs h1 gs' h1',
    events2gs trace_mixed ∅ = Done gs h1 /\
    events2gs (List.filter (concerns 2) trace_mixed) ∅ = Done gs' h1' /\
    view gs' h1' !! 2 = view gs h1 !! 2.
Proof. apply (events2gs_local trace_mixed ∅ 2). reflexivity. Defined.

(** ** What the reconstruction leaves alone *)

Lemma assign_inv p f h h' :
  assign p f h = Done tt h' ->
  exists l r, p = Some l /\ h !! l = Some r /\ h' = <[l := f r]> h.
Proof.
  unfold assign. destruct p as [l|]; [|done].
  destruct (h !! l) as [r|] eqn:Hr; [|done]. intros [= <-]. eauto.
Qed.

Lemma load_inv p h r h' : load p h = Done r h' -> h' = h.
Proof. apply readonly_load. Qed.

Lemma framed_write h0 gs h l r :
  framed h0 gs h -> h0 !! l = None -> framed h0 gs (<[l := r]> h).
Proof.
  intros [Hkeep Hout] Hl. split; [|done]. intros l' r' Hr'.
  rewrite lookup_insert_ne; [by apply Hkeep|]. intros <-. congruence.
Qed.

Lemma framed_assign h0 gs h g l f h' :
  framed h0 gs h -> gs !! g = Some l -> assign (Some l) f h = Done tt h' ->
  framed h0 gs h'.
Proof.
  intros Hf Hg Has. apply assign_inv in Has as (l' & r & [= <-] & _ & ->).
  apply framed_write; [done|]. destruct Hf as [_ Hout]. eauto.
Qed.

Lemma framed_new h0 gs h g r :
  framed h0 gs h ->
  framed h0 (<[g := fresh (dom h)]> gs) (<[fresh (dom h) := r]> h).
Proof.
  intros [Hkeep Hout].
  assert (Hfresh : h0 !! fresh (dom h) = None).
  { destruct (h0 !! fresh (dom h)) as [r0|] eqn:Hr0; [|done].
    apply Hkeep, elem_of_dom_2 in Hr0. destruct (is_fresh (dom h) Hr0). }
  split.
  - intros l r' Hr'. rewrite lookup_insert_ne; [by apply Hkeep|].
    intros <-. congruence.
  - intros g' l. destruct (decide (g' = g)) as [->|Hne].
    + rewrite lookup_insert_eq. by intros [= <-].
    + rewrite lookup_insert_ne by done. apply Hout.
Qed.

Lemma events2gs_switch_framed h0 gs h ev gs' h' :
  framed h0 gs h -> events2gs_switch gs ev h = Done gs' h' -> framed h0 gs' h'.
Proof.
  intros Hf. unfold events2gs_switch.
  destruct (Typ ev =? EvGoCreate).
  - unfold bind, new. rewrite (load_Some _ _ (Goroutine_lit (Args0 ev) (Ts ev)))
      by apply lookup_insert_eq.
    unfold ret. simpl ID. intros [= <- <-]. by apply framed_new.
  - destruct (Typ ev =? EvGoEnd); [|unfold ret; by intros [= <- <-]].
    cbv zeta. intros Hb. apply bind_inv_Done in Hb as ([] & h1 & Has & Hret).
    unfold ret in Hret. injection Hret as <- <-.
    destruct (gs !! G ev) as [l|] eqn:Hg; [|done].
    by eapply framed_assign.
Qed.

Lemma events2gs_observe_framed h0 gs h ev gs' h' :
  framed h0 gs h -> events2gs_observe gs ev h = Done gs' h' -> framed h0 gs' h'.
Proof.
  intros Hf. unfold events2gs_observe.
  destruct (gs !! G ev) as [l|] eqn:Hg; [|unfold ret; by intros [= <- <-]].
  intros Hb. apply bind_inv_Done in Hb as ([] & h1 & Has1 & Hb).
  apply bind_inv_Done in Hb as ([] & h2 & Has2 & Hb).
  apply bind_inv_Done in Hb as (r & h3 & Hload & Hb).
  apply bind_inv_Done in Hb as ([] & h4 & Hname & Hret).
  unfold ret in Hret. injection Hret as <- <-.
  apply load_inv in Hload as ->.
  assert (Hf2 : framed h0 gs h2).
  { eapply framed_assign; [|done|exact Has2]. by eapply framed_assign. }
  destruct ((0 <? length (Stk ev))%nat && bool_decide (name r = "")).
  - destruct (Stk ev !! 0%nat) as [frame|]; [|done]. by eapply framed_assign.
  - unfold ret in Hname. by injection Hname as <-.
Qed.

Lemma events2gs_pass2_framed h0 gs h ev gs' h' :
  framed h0 gs h -> events2gs_pass2 gs ev h = Done gs' h' -> framed h0 gs' h'.
Proof.
  intros Hf. unfold events2gs_pass2.
  destruct (negb (Typ ev =? EvGoCreate) || bool_decide (Link ev = None));
    [unfold ret; by intros [= <- <-]|].
  destruct (Link ev) as [link|]; [|done].
  destruct (gs !! G link) as [l|] eqn:Hg; [|unfold ret; by intros [= <- <-]].
  cbv zeta. intros Hb.
  apply bind_inv_Done in Hb as ([] & h1 & Has1 & Hb).
  apply bind_inv_Done in Hb as ([] & h2 & Has2 & Hret).
  unfold ret in Hret. injection Hret as <- <-.
  eapply framed_assign; [|done|exact Has2]. by eapply framed_assign.
Qed.

Lemma for_range_framed h0 (body : gmap Z loc -> Event -> M (gmap Z loc)) events :
  (forall gs h ev gs' h', framed h0 gs h -> body gs ev h = Done gs' h' ->
                          framed h0 gs' h') ->
  forall gs h gs' h', framed h0 gs h -> for_range body gs events h = Done gs' h' ->
                      framed h0 gs' h'.
Proof.
  intros Hbody. induction events as [|ev events IH]; intros gs h gs' h' Hf; simpl.
  - unfold ret. by intros [= <- <-].
  - intros Hb. apply bind_inv_Done in Hb as (gs1 & h1 & Hstep & Hrest).
    eapply IH; [|exact Hrest]. by eapply Hbody.
Qed.

(** The reconstruction works on records of its own: every cell of the
    heap it is given is in the heap it returns, unchanged, and no
    pointer of the mapping it returns leads to such a cell. *)
Theorem events2gs_frame events h gs h' :
  events2gs events h = Done gs h' ->
  (forall l r, h !! l = Some r -> h' !! l = Some r) /\
  (forall g l, gs !! g = Some l -> h !! l = None /\ is_Some (h' !! l)).
Proof.
  intros Hrun. pose proof (events2gs_spec events h) as Hs. rewrite Hrun in Hs.
  destruct Hs as (_ & Ha & _). unfold events2gs in Hrun.
  apply bind_inv_Done in Hrun as (gs1 & h1 & Hp1 & Hp2).
  assert (Hf0 : framed h ∅ h).
  { split; [done|]. intros g l Hg. by rewrite lookup_empty in Hg. }
  assert (Hf1 : framed h gs1 h1).
  { eapply (for_range_framed h events2gs_pass1); [|exact Hf0|exact Hp1].
    intros gs0 hc ev gs0' hc' Hf Hstep. unfold events2gs_pass1 in Hstep.
    apply bind_inv_Done in Hstep as (gs2 & h2 & Hsw & Hob).
    eapply events2gs_observe_framed; [|exact Hob].
    by eapply events2gs_switch_framed. }
  assert (Hf2 : framed h gs h').
  { eapply (for_range_framed h events2gs_pass2); [|exact Hf1|exact Hp2].
    apply events2gs_pass2_framed. }
  destruct Hf2 as [Hkeep Hout]. split; [done|].
  intros g l Hg. split; [by eapply Hout | by eapply Ha].
Qed.

Lemma events2gs_frame_witness :
  events2gs trace_ended heap_same_digest
  = Done {[ 2 := 3%positive ]}
         (<[3%positive := mkGoroutine 2 0 [] "" 1 2 [] "EvGoEnd"]> heap_same_digest) /\
  (forall l r, heap_same_digest !! l = Some r ->
               (<[3%positive := mkGoroutine 2 0 [] "" 1 2 [] "EvGoEnd"]> heap_same_digest)
                 !! l = Some r) /\
  (forall g l, ({[ 2 := 3%positive ]} : gmap Z loc) !! g = Some l ->
               heap_same_digest !! l = None /\
               is_Some ((<[3%positive := mkGoroutine 2 0 [] "" 1 2 [] "EvGoEnd"]>
                           heap_same_digest) !! l)).
Proof.
  assert (Hrun : events2gs trace_ended heap_same_digest
                 = Done {[ 2 := 3%positive ]}
                     (<[3%positive := mkGoroutine 2 0 [] "" 1 2 [] "EvGoEnd"]>
                        heap_same_digest)).
  { vm_compute. reflexivity. }
  split; [exact Hrun|]. exact (events2gs_frame _ _ _ _ Hrun).
Defined.

(** * Further properties of the filter *)

(** The output of the filter does not depend on the order in which the
    loop visits the mapping: it is the part of the mapping whose records
    have no termination time, with the same pointers. *)
Theorem unfinishedGs_any_order gs h order :
  allocated gs h -> range_order gs order ->
  exists u, unfinishedGs_in order h = Done u h /\
            unfinishedGs gs h = Done u h /\
            u ⊆ gs /\
            forall id g, u !! id = Some g <->
                         gs !! id = Some g /\
                         exists r, h !! g = Some r /\ destroy r = 0.
Proof.
  intros Ha Hord.
  destruct (unfinishedGs_in_spec gs h order Ha Hord) as (u & Hu & Hlook).
  destruct (unfinishedGs_spec gs h Ha) as (u' & Hu' & Hlook').
  assert (u' = u) as ->.
  { apply map_eq. intros id.
    destruct (u' !! id) as [g|] eqn:H1, (u !! id) as [g'|] eqn:H2; try done.
    - apply Hlook' in H1 as [H1 _]. apply Hlook in H2 as [H2 _]. congruence.
    - apply Hlook', Hlook in H1. congruence.
    - apply Hlook, Hlook' in H2. congruence. }
  exists u. split_and!; try done.
  apply map_subseteq_spec. intros id g Hg. by apply Hlook in Hg as [? _].
Qed.

Lemma unfinishedGs_any_order_witness :
  exists u,
    unfinishedGs_in [(4, 4%positive); (1, 1%positive); (3, 3%positive); (2, 2%positive)]
                    heap_four
    = Done u heap_four /\
    unfinishedGs gs_four heap_four = Done u heap_four /\
    u ⊆ gs_four /\
    forall id g, u !! id = Some g <->
                 gs_four !! id = Some g /\
                 exists r, heap_four !! g = Some r /\ destroy r = 0.
Proof.
  apply unfinishedGs_any_order.
  - unfold allocated. apply (bool_decide_unpack _). vm_compute. exact I.
  - unfold range_order. apply (bool_decide_unpack _). vm_compute. exact I.
Defined.

(** Filtering twice is filtering once: on its own output the filter
    returns that output. *)
Theorem unfinishedGs_idempotent gs h u h' :
  allocated gs h -> unfinishedGs gs h = Done u h' ->
  unfinishedGs u h' = Done u h'.
Proof.
  intros Ha Hrun.
  destruct (unfinishedGs_spec gs h Ha) as (u0 & Hu0 & Hlook).
  rewrite Hu0 in Hrun. injection Hrun as <- <-.
  pose proof (unfinished_allocated gs h u0 Ha Hlook) as Hua.
  destruct (unfinishedGs_spec u0 h Hua) as (u1 & Hu1 & Hlook1).
  rewrite Hu1. f_equal. apply map_eq. intros id.
  destruct (u1 !! id) as [g|] eqn:H1, (u0 !! id) as [g'|] eqn:H2; try done.
  - apply Hlook1 in H1 as [H1 _]. congruence.
  - apply Hlook1 in H1 as [H1 _]. congruence.
  - assert (u1 !! id = Some g'); [|congruence].
    apply Hlook1. split; [done|]. by apply Hlook in H2 as [_ ?].
Qed.

Lemma unfinishedGs_idempotent_witness :
  unfinishedGs gs_four heap_four = Done gs_three heap_four /\
  unfinishedGs gs_three heap_four = Done gs_three heap_four.
Proof.
  assert (Hrun : unfinishedGs gs_four heap_four = Done gs_three heap_four).
  { vm_compute. reflexivity. }
  split; [exact Hrun|]. apply (unfinishedGs_idempotent gs_four heap_four).
  - unfold allocated. apply (bool_decide_unpack _). vm_compute. exact I.
  - exact Hrun.
Defined.

(** * Further properties of the grouper *)

Lemma mjoin_concat {A} (ls : list (list A)) : mjoin ls = concat ls.
Proof. induction ls as [|l ls IH]; simpl; [done | by rewrite IH]. Qed.

(** What a run of the first loop and of the collection leaves: the
    groups are the values of a map from fingerprints to the non-empty
    classes of the visited pointers. *)
Lemma uniq_run_groups gs h out h' :
  allocated gs h -> uniq_run gs h (Done out h') ->
  h' = h /\
  exists order (gm : gmap string (list loc)),
    range_order gs order /\ out ≡ₚ (map_to_list gm).*2 /\
    forall k group, gm !! k = Some group <->
                    group = filter (keyed h k) order.*2 /\ group <> [].
Proof.
  intros Ha Hrun.
  inversion Hrun as [|order gm h'' order' out' Hord Hloop Hord' Hsort]; subst.
  assert (Hal : forall l, l ∈ order.*2 -> is_Some (h !! l)).
  { intros l Hl. apply (range_order_values gs) in Hl as [id Hid]; [|done].
    by eapply Ha. }
  destruct (uniq_loop_empty h order.*2 Hal) as (gm' & Hgm & Hlook).
  rewrite Hgm in Hloop. injection Hloop as <- <-. split; [done|].
  exists order, gm'. split_and!; [done| |done].
  destruct Hsort as [Hperm _]. rewrite Hperm.
  unfold range_order in Hord'. by rewrite Hord'.
Qed.

Lemma insert_values_Permutation (m : gmap string (list loc)) k g :
  mjoin (map_to_list (<[k := (default [] (m !! k) ++ [g])%list]> m)).*2
  ≡ₚ g :: mjoin (map_to_list m).*2.
Proof.
  destruct (m !! k) as [old|] eqn:Hk; simpl.
  - rewrite <- insert_delete_eq.
    rewrite map_to_list_insert by apply lookup_delete_eq.
    rewrite <- (map_to_list_delete m k old Hk). simpl.
    rewrite <- app_assoc. simpl. by rewrite <- Permutation_middle.
  - rewrite map_to_list_insert by done. done.
Qed.

Lemma uniq_loop_values h ls : forall acc gm h',
  for_range uniq_body acc ls h = Done gm h' ->
  mjoin (map_to_list gm).*2 ≡ₚ (mjoin (map_to_list acc).*2 ++ ls)%list.
Proof.
  induction ls as [|l ls IH]; intros acc gm h'; simpl.
  - unfold ret. intros [= <- <-]. by rewrite app_nil_r.
  - intros Hb. apply bind_inv_Done in Hb as (acc1 & h1 & Hbody & Hrest).
    assert (Hr : exists r, h !! l = Some r).
    { unfold uniq_body, hash, bind, load in Hbody.
      destruct (h !! l) as [r|]; [eauto | done]. }
    destruct Hr as [r Hr]. rewrite (uniq_body_spec acc l h r Hr) in Hbody.
    injection Hbody as <- <-. rewrite (IH _ _ _ Hrest).
    rewrite insert_values_Permutation. by rewrite <- Permutation_middle.
Qed.

(** The groups of a run partition the goroutines given to the grouper:
    the groups put end to end are a rearrangement of the pointers of the
    mapping, so that each goroutine is in one group, once; no group is
    empty; and the cardinalities add up to the size of the mapping. *)
Theorem uniq_partition gs h out h' :
  allocated gs h -> uniq_run gs h (Done out h') ->
  concat out ≡ₚ (map_to_list gs).*2 /\
  Forall (fun group => group <> []) out /\
  length (concat out) = size gs.
Proof.
  intros Ha Hrun.
  assert (Hperm : concat out ≡ₚ (map_to_list gs).*2).
  { inversion Hrun as [|order gm h'' order' out' Hord Hloop Hord' Hsort]; subst.
    destruct Hsort as [Hout _]. unfold range_order in Hord, Hord'.
    rewrite <- mjoin_concat, Hout, Hord'.
    rewrite (uniq_loop_values _ _ _ _ _ Hloop).
    rewrite map_to_list_empty. simpl. by rewrite Hord. }
  split_and!; [done| |].
  - destruct (uniq_run_spec gs h _ Ha Hrun) as (out' & order & Heq & _ & _ & Hgrp).
    injection Heq as <- _. apply Forall_forall. intros group Hin.
    by apply Hgrp in Hin as (k & _ & Hne).
  - rewrite Hperm, length_fmap. apply length_map_to_list.
Qed.

Lemma uniq_three_run :
  uniq_run gs_three heap_three (Done [[2; 1]; [3]]%positive heap_three).
Proof. rewrite <- uniq_three. apply uniq_is_run. Qed.

Lemma allocated_three : allocated gs_three heap_three.
Proof. unfold allocated. apply (bool_decide_unpack _). vm_compute. exact I. Qed.

Lemma uniq_partition_witness :
  concat [[2; 1]; [3]]%positive ≡ₚ (map_to_list gs_three).*2 /\
  Forall (fun group => group <> []) [[2; 1]; [3]]%positive /\
  length (concat [[2; 1]; [3]]%positive) = size gs_three.
Proof.
  exact (uniq_partition gs_three heap_three _ heap_three
           allocated_three uniq_three_run).
Defined.

(** A run makes one group per fingerprint: two goroutines with the same
    fingerprint are never in two different groups. *)
Theorem uniq_one_group_per_fingerprint gs h out h' (i j : nat) gi gj a b ra rb :
  allocated gs h -> uniq_run gs h (Done out h') ->
  out !! i = Some gi -> out !! j = Some gj -> a ∈ gi -> b ∈ gj ->
  h !! a = Some ra -> h !! b = Some rb ->
  fingerprint ra = fingerprint rb -> i = j.
Proof.
  intros Ha Hrun Hi Hj Hai Hbj Hra Hrb Hfp.
  destruct (uniq_run_groups gs h out h' Ha Hrun) as (_ & order & gm & Hord & Hout & Hlook).
  assert (Hkey : forall k group x r, gm !! k = Some group -> x ∈ group ->
                                     h !! x = Some r -> k = fingerprint r).
  { intros k group x r Hk Hx Hr. apply Hlook in Hk as [-> _].
    apply list_elem_of_filter in Hx as [Hx _]. unfold keyed in Hx.
    rewrite Hr in Hx. simpl in Hx. congruence. }
  assert (Hnd : NoDup out).
  { rewrite Hout. apply NoDup_fmap_2_strong; [|apply NoDup_map_to_list].
    intros [k1 g1] [k2 g2] H1 H2 Heq. simpl in Heq. subst g2. f_equal.
    apply elem_of_map_to_list in H1, H2.
    destruct g1 as [|x g1]; [by apply Hlook in H1 as [_ ?]|].
    assert (Hx : x ∈ x :: g1) by left.
    pose proof H1 as H1'. apply Hlook in H1' as [Hf _].
    assert (Hxa : is_Some (h !! x)).
    { rewrite Hf in Hx. apply list_elem_of_filter in Hx as [Hx _].
      unfold keyed in Hx. destruct (h !! x); [eauto | done]. }
    destruct Hxa as [r Hr].
    rewrite (Hkey k1 _ x r H1 Hx Hr), (Hkey k2 _ x r H2 Hx Hr). done. }
  assert (Hin : forall n g, out !! n = Some g -> exists k, gm !! k = Some g).
  { intros n g Hn. apply list_elem_of_lookup_2 in Hn. rewrite Hout in Hn.
    apply list_elem_of_fmap in Hn as ([k g'] & -> & Hel).
    apply elem_of_map_to_list in Hel. eauto. }
  destruct (Hin i gi Hi) as [ki Hki]. destruct (Hin j gj Hj) as [kj Hkj].
  assert (ki = kj).
  { rewrite (Hkey ki gi a ra Hki Hai Hra), (Hkey kj gj b rb Hkj Hbj Hrb). done. }
  subst kj. rewrite Hki in Hkj. injection Hkj as <-.
  by eapply NoDup_lookup.
Qed.

Lemma uniq_one_group_per_fingerprint_witness : 0%nat = 0%nat.
Proof.
  apply (uniq_one_group_per_fingerprint gs_three heap_three
           [[2; 1]; [3]]%positive heap_three 0 0 [2; 1]%positive [2; 1]%positive
           2%positive 1%positive blocked_on_recv blocked_in_Recv
           allocated_three uniq_three_run).
  - reflexivity.
  - reflexivity.
  - apply list_elem_of_here.
  - apply list_elem_of_further, list_elem_of_here.
  - reflexivity.
  - reflexivity.
  - reflexivity.
Defined.

(** Two runs of the grouper on the same mapping, whatever the orders of
    their visits and sorts, return as many groups, and each group of one
    is a rearrangement of a group of the other. *)
Theorem uniq_runs_agree gs h out1 h1 out2 h2 :
  allocated gs h ->
  uniq_run gs h (Done out1 h1) -> uniq_run gs h (Done out2 h2) ->
  length out1 = length out2 /\
  forall group, group ∈ out1 -> exists group', group' ∈ out2 /\ group ≡ₚ group'.
Proof.
  intros Ha Hrun1 Hrun2.
  destruct (uniq_run_groups gs h out1 h1 Ha Hrun1)
    as (_ & order1 & gm1 & Hord1 & Hout1 & Hlook1).
  destruct (uniq_run_groups gs h out2 h2 Ha Hrun2)
    as (_ & order2 & gm2 & Hord2 & Hout2 & Hlook2).
  assert (Hperm : order1.*2 ≡ₚ order2.*2).
  { unfold range_order in Hord1, Hord2. by rewrite Hord1, Hord2. }
  assert (Hfil : forall k, filter (keyed h k) order1.*2 ≡ₚ filter (keyed h k) order2.*2).
  { intros k. by rewrite Hperm. }
  assert (Hdom : forall k, is_Some (gm1 !! k) <-> is_Some (gm2 !! k)).
  { intros k. split; intros [group Hk].
    - apply Hlook1 in Hk as [-> Hne]. eexists. apply Hlook2. split; [done|].
      intros He. apply Hne. apply Permutation_nil_r. by rewrite <- He, Hfil.
    - apply Hlook2 in Hk as [-> Hne]. eexists. apply Hlook1. split; [done|].
      intros He. apply Hne. apply Permutation_nil_r. by rewrite <- He, <- Hfil. }
  split.
  - rewrite Hout1, Hout2, !length_fmap, !length_map_to_list.
    rewrite <- !size_dom. f_equal. apply set_eq. intros k.
    by rewrite !elem_of_dom.
  - intros group Hin. rewrite Hout1 in Hin.
    apply list_elem_of_fmap in Hin as ([k g] & -> & Hel). simpl.
    apply elem_of_map_to_list in Hel.
    destruct (proj1 (Hdom k)) as [group' Hk']; [eauto|].
    exists group'. split.
    + rewrite Hout2. apply list_elem_of_fmap. exists (k, group'). split; [done|].
      by apply elem_of_map_to_list.
    + apply Hlook1 in Hel as [-> _]. apply Hlook2 in Hk' as [-> _]. apply Hfil.
Qed.

Lemma uniq_three_other_run :
  uniq_run gs_three heap_three (Done [[1; 2]; [3]]%positive heap_three).
Proof.
  eapply (uniq_run_done _ _ [(1, 1%positive); (2, 2%positive); (3, 3%positive)]).
  - unfold range_order. apply (bool_decide_unpack _). vm_compute. exact I.
  - vm_compute. reflexivity.
  - apply range_order_map_to_list.
  - match goal with
    | |- sort_Sort_post _ ?d _ =>
        replace [[1; 2]; [3]]%positive with (sort_Sort byLen_Less d)
          by (vm_compute; reflexivity)
    end.
    apply sort_Sort_meets_post; [apply @byLen_Less_asym | apply @byLen_Less_trans].
Qed.

Lemma uniq_runs_agree_witness :
  length [[2; 1]; [3]]%positive = length [[1; 2]; [3]]%positive /\
  forall group, group ∈ [[2; 1]; [3]]%positive ->
                exists group', group' ∈ [[1; 2]; [3]]%positive /\ group ≡ₚ group'.
Proof.
  exact (uniq_runs_agree gs_three heap_three _ heap_three _ heap_three
           allocated_three uniq_three_run uniq_three_other_run).
Defined.

(** * The phases together *)

(** From the events to the groups: when the reconstruction returns, the
    filter and every run of the grouper return as well, and the groups
    hold exactly the goroutines of the mapping that have no termination
    time; one that has a termination time is in no group. *)
Theorem pipeline_groups_unfinished events h :
  ends_known ∅ events = true ->
  exists gs h', events2gs events h = Done gs h' /\
    forall order, range_order gs order ->
      exists u, unfinishedGs_in order h' = Done u h' /\
        forall o, uniq_run u h' o ->
          exists out, o = Done out h' /\
            forall l, (exists group, group ∈ out /\ l ∈ group) <->
                      exists g r, gs !! g = Some l /\ h' !! l = Some r /\ destroy r = 0.
Proof.
  intros Hk.
  destruct (events2gs_Done events h Hk) as (gs & h' & Hev & Ha & Hu & Hview).
  exists gs, h'. split; [done|]. intros order Hord.
  destruct (unfinishedGs_in_spec gs h' order Ha Hord) as (u & Hrun & Hlook).
  exists u. split; [done|]. intros o Ho.
  pose proof (unfinished_allocated gs h' u Ha Hlook) as Hua.
  destruct (uniq_run_spec u h' o Hua Ho) as (out & order' & -> & Hord' & _ & Hgrp).
  exists out. split; [done|]. intros l. split.
  - intros (group & Hin & Hl). apply Hgrp in Hin as (k & -> & _).
    apply list_elem_of_filter in Hl as [_ Hl].
    apply (range_order_values u) in Hl as [g Hg]; [|done].
    apply Hlook in Hg as [Hg (r & Hr & Hd)]. eauto.
  - intros (g & r & Hg & Hr & Hd).
    assert (Hin : l ∈ order'.*2).
    { apply (range_order_values u); [done|]. exists g. apply Hlook.
      split; [done|]. by exists r. }
    exists (filter (keyed h' (fingerprint r)) order'.*2).
    assert (Hl : l ∈ filter (keyed h' (fingerprint r)) order'.*2).
    { apply list_elem_of_filter. split; [|done]. unfold keyed. by rewrite Hr. }
    split; [|done]. apply Hgrp. exists (fingerprint r). split; [done|].
    intros He. rewrite He in Hl. by apply elem_of_nil in Hl.
Qed.

Lemma pipeline_groups_unfinished_witness :
  exists gs h', events2gs trace_mixed ∅ = Done gs h' /\
    forall order, range_order gs order ->
      exists u, unfinishedGs_in order h' = Done u h' /\
        forall o, uniq_run u h' o ->
          exists out, o = Done out h' /\
            forall l, (exists group, group ∈ out /\ l ∈ group) <->
                      exists g r, gs !! g = Some l /\ h' !! l = Some r /\ destroy r = 0.
Proof. apply (pipeline_groups_unfinished trace_mixed ∅). reflexivity. Defined.

(** The three phases return a result exactly when the reconstruction
    does; the filter and the grouper add no panic of their own. *)
Theorem pipeline_returns_iff events h :
  (exists out h', pipeline events h = Done out h') <->
  (exists gs h', events2gs events h = Done gs h').
Proof.
  unfold pipeline. split.
  - intros (out & h' & Hb). apply bind_inv_Done in Hb as (gs & h1 & Hev & _). eauto.
  - intros (gs & h1 & Hev). rewrite (bind_Done _ _ _ _ _ Hev).
    pose proof (events2gs_spec events h) as Hs. rewrite Hev in Hs.
    destruct Hs as (_ & Ha & _).
    destruct (unfinishedGs_spec gs h1 Ha) as (u & Hu & Hlook).
    rewrite (bind_Done _ _ _ _ _ Hu).
    pose proof (unfinished_allocated gs h1 u Ha Hlook) as Hua.
    destruct (uniq_run_spec u h1 _ Hua (uniq_is_run u h1)) as (out & _ & -> & _).
    eauto.
Qed.

(** * The report *)

Lemma string_app_cons c (s t : string) : String c s +:+ t = String c (s +:+ t).
Proof. reflexivity. Qed.

Lemma string_app_nil_l (t : string) : "" +:+ t = t.
Proof. reflexivity. Qed.

Lemma string_app_nil_r (s : string) : s +:+ "" = s.
Proof. induction s as [|c s IH]; [done|]. by rewrite string_app_cons, IH. Qed.

Lemma string_app_assoc (s1 s2 s3 : string) :
  (s1 +:+ s2) +:+ s3 = s1 +:+ s2 +:+ s3.
Proof.
  induction s1 as [|c s1 IH]; [done|]. by rewrite !string_app_cons, IH.
Qed.

Lemma Stack_String_from_cons first frame s :
  Stack_String_from first (frame :: s) =
  (if first then "" else newline) +:+ Frame_String frame +:+ Stack_String_from false s.
Proof. reflexivity. Qed.

Lemma Stack_String_concat s :
  Stack_String s = String.concat newline (Frame_String <$> s).
Proof.
  unfold Stack_String. destruct s as [|frame s]; [done|].
  rewrite Stack_String_from_cons, string_app_nil_l.
  revert frame. induction s as [|frame' s IH]; intros frame.
  - apply string_app_nil_r.
  - rewrite Stack_String_from_cons, IH. reflexivity.
Qed.

(** The loop of [Stack.String] joins the renderings of the frames with
    newlines: one frame per line, no newline at either end. *)
Theorem Stack_String_join s :
  Stack_String s = String.concat newline (Frame_String <$> s).
Proof. apply Stack_String_concat. Qed.

(** The rendering of two stacks put end to end is the two renderings
    with a newline between them, if neither stack is empty. *)
Theorem Stack_String_app s1 s2 :
  Stack_String (s1 ++ s2) =
  Stack_String s1
    +:+ (if bool_decide (s1 = [] \/ s2 = []) then "" else newline)
    +:+ Stack_String s2.
Proof.
  destruct s1 as [|f1 s1].
  - rewrite bool_decide_eq_true_2 by (by left). done.
  - destruct s2 as [|f2 s2].
    + rewrite bool_decide_eq_true_2 by (by right).
      by rewrite app_nil_r, !string_app_nil_r.
    + rewrite bool_decide_eq_false_2 by (intros [?|?]; done).
      unfold Stack_String. rewrite <- app_comm_cons.
      rewrite !(Stack_String_from_cons true), !string_app_nil_l.
      rewrite !string_app_assoc. f_equal.
      induction s1 as [|f s1 IH].
      * rewrite app_nil_l. by rewrite (Stack_String_from_cons false f2).
      * rewrite <- app_comm_cons.
        rewrite !(Stack_String_from_cons false f), !string_app_assoc.
        by rewrite IH.
Qed.

Lemma prefix_newline c s : String.prefix newline (String c s) = Ascii.eqb c "010".
Proof.
  change (String.prefix newline (String c s))
    with (if ascii_dec "010" c then String.prefix "" s else false).
  destruct (ascii_dec "010" c) as [<-|Hne].
  - by destruct s.
  - symmetry. apply Ascii.eqb_neq. congruence.
Qed.

Lemma Replace_newline_cons new c s :
  strings_Replace (String c s) newline new =
  if Ascii.eqb c "010" then new +:+ strings_Replace s newline new
  else String c (strings_Replace s newline new).
Proof.
  change (strings_Replace (String c s) newline new)
    with (if String.prefix newline (String c s)
          then new +:+ strings_Replace s newline new
          else String c (strings_Replace s newline new)).
  by rewrite prefix_newline.
Qed.

(** Replacing the newlines of two strings put end to end is replacing
    them in each. *)
Lemma Replace_newline_app new s1 s2 :
  strings_Replace (s1 +:+ s2) newline new =
  strings_Replace s1 newline new +:+ strings_Replace s2 newline new.
Proof.
  induction s1 as [|c s1 IH]; [done|].
  rewrite string_app_cons, !Replace_newline_cons, IH.
  destruct (Ascii.eqb c "010"); [by rewrite string_app_assoc | done].
Qed.

Lemma Replace_newline_none new s :
  no_newline s = true -> strings_Replace s newline new = s.
Proof.
  induction s as [|c s IH]; [done|]. simpl. intros Hn.
  apply andb_prop in Hn as [Hc Hs]. apply negb_true_iff in Hc.
  by rewrite Replace_newline_cons, Hc, IH.
Qed.

Lemma no_newline_app s1 s2 :
  no_newline (s1 +:+ s2) = no_newline s1 && no_newline s2.
Proof.
  induction s1 as [|c s1 IH]; [done|].
  rewrite string_app_cons. simpl. by rewrite IH, andb_assoc.
Qed.

Lemma no_newline_pretty_N_char x : Ascii.eqb (pretty_N_char x) "010" = false.
Proof. unfold pretty_N_char. by repeat case_match. Qed.

Lemma no_newline_pretty_N_go x : forall s,
  no_newline s = true -> no_newline (pretty_N_go x s) = true.
Proof.
  induction (N.lt_wf_0 x) as [x _ IH]. intros s Hs.
  destruct (decide (0 < x)%N) as [Hx|Hx].
  - rewrite pretty_N_go_step by done. apply IH.
    + apply N.div_lt; [done|]. by compute.
    + simpl. by rewrite no_newline_pretty_N_char, Hs.
  - assert (x = 0%N) as -> by lia. by rewrite pretty_N_go_0.
Qed.

Lemma no_newline_pretty_Z (x : Z) : no_newline (pretty x) = true.
Proof.
  assert (Hpos : forall p : positive, no_newline (pretty p) = true).
  { intros p. unfold pretty, pretty_positive, pretty, pretty_N.
    rewrite decide_False by done. by apply no_newline_pretty_N_go. }
  unfold pretty, pretty_Z. destruct x as [|p|p]; [done|apply Hpos|].
  rewrite no_newline_app, Hpos. done.
Qed.

Lemma no_newline_Frame_String frame :
  no_newline (Fn frame) = true -> no_newline (File frame) = true ->
  no_newline (Frame_String frame) = true.
Proof.
  intros Hfn Hfile. unfold Frame_String.
  by rewrite !no_newline_app, Hfn, Hfile, no_newline_pretty_Z.
Qed.

Lemma Replace_newline_concat new (lines : list string) :
  Forall (fun line => no_newline line = true) lines ->
  strings_Replace (String.concat newline lines) newline new
  = String.concat new lines.
Proof.
  induction 1 as [|line lines Hline Hall IH]; [done|].
  destruct lines as [|line' lines].
  - by apply Replace_newline_none.
  - change (String.concat newline (line :: line' :: lines))
      with (line +:+ newline +:+ String.concat newline (line' :: lines)).
    change (String.concat new (line :: line' :: lines))
      with (line +:+ new +:+ String.concat new (line' :: lines)).
    rewrite !Replace_newline_app, IH, Replace_newline_none by done.
    f_equal. f_equal. unfold newline. rewrite Replace_newline_cons. simpl.
    apply string_app_nil_r.
Qed.

(** The text of a goroutine: its name and its last state on the first
    line, then the frames of its last stack, one per line, each behind a
    tabulation — when no function name and no file name of the stack has
    a newline in it. An empty stack leaves a line with the tabulation
    alone. *)
Theorem Goroutine_String_layout g :
  Forall (fun frame => no_newline (Fn frame) = true /\ no_newline (File frame) = true)
         (lastStack g) ->
  Goroutine_String g =
  name g +:+ " [" +:+ lastState g +:+ "]:" +:+ newline +:+ tab
    +:+ String.concat (newline +:+ tab) (Frame_String <$> lastStack g).
Proof.
  intros Hall. unfold Goroutine_String. cbv zeta.
  rewrite Stack_String_concat, Replace_newline_concat; [done|].
  apply Forall_fmap. eapply Forall_impl; [exact Hall|].
  intros frame [Hfn Hfile]. by apply no_newline_Frame_String.
Qed.

Lemma Goroutine_String_layout_witness :
  Goroutine_String (mkGoroutine 1 0 [] "main.run" 0 0 [recv_named; run_main] "EvGoBlock")
  = "main.run" +:+ " [" +:+ "EvGoBlock" +:+ "]:" +:+ newline +:+ tab
      +:+ String.concat (newline +:+ tab) (Frame_String <$> [recv_named; run_main]).
Proof.
  apply (Goroutine_String_layout
           (mkGoroutine 1 0 [] "main.run" 0 0 [recv_named; run_main] "EvGoBlock")).
  repeat constructor.
Defined.

(** ** The loop of [main] *)

Lemma main_print_loop h groups : forall printed,
  Forall (fun group => exists g r, group !! 0%nat = Some g /\ h !! g = Some r) groups ->
  exists text, for_range main_body printed groups h = Done text h.
Proof.
  induction groups as [|group groups IH]; intros printed Hall; simpl.
  - by exists printed.
  - apply Forall_cons in Hall as [(g & r & Hg & Hr) Hall].
    unfold main_body at 1. rewrite Hg.
    erewrite bind_Done.
    2: { erewrite bind_Done by (apply load_Some; exact Hr). reflexivity. }
    apply IH, Hall.
Qed.

(** The report never reads past the end of a group: on the groups of any
    run of the grouper the loop of [main] returns, where [group[0]] is
    the first goroutine visited with the fingerprint of the group; and
    [main] as a whole, from the parsed events on, returns exactly when
    the reconstruction does. *)
Theorem main_report_returns gs h events h0 :
  (allocated gs h ->
   forall out h', uniq_run gs h (Done out h') ->
                  exists text, main_print out h' = Done text h') /\
  ((exists text h', main_report events h0 = Done text h') <->
   (exists gs' h', events2gs events h0 = Done gs' h')).
Proof.
  assert (Hprint : forall gs h, allocated gs h ->
            forall out h', uniq_run gs h (Done out h') ->
                           exists text, main_print out h' = Done text h').
  { clear. intros gs h Ha out h' Hrun.
    destruct (uniq_run_spec gs h _ Ha Hrun) as (out' & order & Heq & Hord & _ & Hgrp).
    injection Heq as <- <-. apply main_print_loop, Forall_forall.
    intros group Hin. apply Hgrp in Hin as (k & Hf & Hne).
    destruct group as [|g group]; [done|]. exists g.
    assert (Hg : g ∈ filter (keyed h' k) order.*2) by (rewrite <- Hf; left).
    apply list_elem_of_filter in Hg as [Hk _]. unfold keyed in Hk.
    destruct (h' !! g) as [r|]; [eauto | done]. }
  split; [apply Hprint|]. unfold main_report. split.
  - intros (text & h' & Hb). apply bind_inv_Done in Hb as (gs' & h1 & Hev & _). eauto.
  - intros (gs' & h1 & Hev). rewrite (bind_Done _ _ _ _ _ Hev).
    pose proof (events2gs_spec events h0) as Hs. rewrite Hev in Hs.
    destruct Hs as (_ & Ha & _).
    destruct (unfinishedGs_spec gs' h1 Ha) as (u & Hu & Hlook).
    rewrite (bind_Done _ _ _ _ _ Hu).
    pose proof (unfinished_allocated gs' h1 u Ha Hlook) as Hua.
    pose proof (uniq_is_run u h1) as Hrun.
    destruct (uniq_run_spec u h1 _ Hua Hrun) as (out & _ & Heq & _).
    rewrite Heq in Hrun. rewrite (bind_Done _ _ _ _ _ Heq).
    destruct (Hprint u h1 Hua out h1 Hrun) as [text Ht]. eauto.
Qed.

(** * [byLen] and the table of display names *)

(** [byLen.Less] is an order [sort.Sort] can sort by: no group is less
    than itself, being less is transitive, and so is being neither less
    nor greater; a group is less than another exactly when it is longer. *)
Theorem byLen_Less_strict_weak_order (x y z : list loc) :
  byLen_Less x x = false /\
  (byLen_Less x y = true -> byLen_Less y z = true -> byLen_Less x z = true) /\
  (byLen_Less x y = false -> byLen_Less y x = false ->
   byLen_Less y z = false -> byLen_Less z y = false ->
   byLen_Less x z = false /\ byLen_Less z x = false) /\
  (byLen_Less x y = true <-> (length y < length x)%nat).
Proof.
  unfold byLen_Less. rewrite !Nat.ltb_lt, !Nat.ltb_ge. lia.
Qed.

Lemma insert_Permutation_head {A} (t : list A) (j : nat) x y :
  t !! j = Some y -> y :: <[j := x]> t ≡ₚ x :: t.
Proof.
  revert j. induction t as [|z t IH]; intros [|j] Hj; simpl in *; try done.
  - injection Hj as ->. apply Permutation_swap.
  - rewrite Permutation_swap, (IH j Hj). apply Permutation_swap.
Qed.

Lemma swap_Permutation {A} (b : list A) : forall (i j : nat) bi bj,
  b !! i = Some bi -> b !! j = Some bj -> <[j := bi]> (<[i := bj]> b) ≡ₚ b.
Proof.
  induction b as [|z b IH]; intros [|i] [|j] bi bj Hi Hj; simpl in *; try done.
  - injection Hi as ->. by injection Hj as ->.
  - injection Hi as ->. by apply insert_Permutation_head.
  - injection Hj as ->. by apply insert_Permutation_head.
  - by rewrite (IH i j bi bj).
Qed.

(** [byLen.Swap] with both indices in range exchanges the two groups and
    leaves the others where they are, so that the slice stays a
    rearrangement of itself, of the same length; swapping again undoes
    it. With an index out of range it panics, as does [byLen.Less]. *)
Theorem byLen_Swap_exchanges (b : list (list loc)) (i j : nat) :
  ((i < byLen_Len b)%nat -> (j < byLen_Len b)%nat ->
   exists b', byLen_Swap b i j = Some b' /\
     b' !! i = b !! j /\ b' !! j = b !! i /\
     (forall k : nat, k <> i -> k <> j -> b' !! k = b !! k) /\
     byLen_Len b' = byLen_Len b /\ b' ≡ₚ b /\
     byLen_Swap b' i j = Some b /\
     byLen_Less_at b' i j = byLen_Less_at b j i) /\
  (~ ((i < byLen_Len b)%nat /\ (j < byLen_Len b)%nat) ->
   byLen_Swap b i j = None /\ byLen_Less_at b i j = None).
Proof.
  unfold byLen_Len, byLen_Swap, byLen_Less_at. split.
  - intros Hi Hj.
    destruct (lookup_lt_is_Some_2 b i Hi) as [bi Hbi].
    destruct (lookup_lt_is_Some_2 b j Hj) as [bj Hbj].
    rewrite Hbi, Hbj. eexists. split; [reflexivity|].
    assert (Hli : (i < length (<[i:=bj]> b))%nat) by (by rewrite length_insert).
    assert (Hi' : <[j:=bi]> (<[i:=bj]> b) !! i = Some bj).
    { destruct (decide (i = j)) as [->|Hne].
      - rewrite list_lookup_insert_eq by done. congruence.
      - rewrite list_lookup_insert_ne by done. by apply list_lookup_insert_eq. }
    assert (Hj' : <[j:=bi]> (<[i:=bj]> b) !! j = Some bi).
    { apply list_lookup_insert_eq. by rewrite length_insert. }
    assert (Hk : forall k : nat, k <> i -> k <> j ->
                   <[j:=bi]> (<[i:=bj]> b) !! k = b !! k).
    { intros k Hki Hkj. by rewrite !list_lookup_insert_ne. }
    assert (Hback : <[j:=bj]> (<[i:=bi]> (<[j:=bi]> (<[i:=bj]> b))) = b).
    { apply list_eq. intros k.
      destruct (decide (k = j)) as [->|Hkj].
      - rewrite list_lookup_insert_eq by (by rewrite !length_insert). done.
      - rewrite list_lookup_insert_ne by done.
        destruct (decide (k = i)) as [->|Hki].
        + rewrite list_lookup_insert_eq by (by rewrite !length_insert). done.
        + rewrite list_lookup_insert_ne by done. by apply Hk. }
    split_and!; try done.
    + by rewrite !length_insert.
    + by apply swap_Permutation.
    + by rewrite Hi', Hj', Hback.
    + by rewrite Hi', Hj'.
  - intros Hn.
    destruct (b !! i) as [bi|] eqn:Hbi; [|done].
    destruct (b !! j) as [bj|] eqn:Hbj; [|done].
    destruct Hn. split; by eapply lookup_lt_Some.
Qed.

Lemma NoDup_snd_inj {A B} (l : list (A * B)) a b s :
  NoDup l.*2 -> (a, s) ∈ l -> (b, s) ∈ l -> a = b.
Proof.
  induction l as [|[k v] l IH]; simpl; intros Hnd Ha Hb.
  - by apply elem_of_nil in Ha.
  - apply NoDup_cons in Hnd as [Hv Hnd].
    assert (Hin : forall c, (c, s) ∈ l -> s ∈ l.*2).
    { intros c Hc. apply list_elem_of_fmap. by exists (c, s). }
    apply elem_of_cons in Ha as [Ha|Ha]; apply elem_of_cons in Hb as [Hb|Hb].
    + congruence.
    + injection Ha as -> ->. destruct Hv. eauto.
    + injection Hb as -> ->. destruct Hv. eauto.
    + by apply IH.
Qed.

Lemma states_lookup_range t s :
  states !! t = Some s -> 0 <= t <= 37 /\ s <> "".
Proof.
  intros Ht. apply elem_of_map_to_list in Ht.
  assert (Hall : Forall (fun kv : Z * string => 0 <= kv.1 <= 37 /\ kv.2 <> "")
                        (map_to_list states)).
  { apply (bool_decide_unpack _). vm_compute. exact I. }
  rewrite Forall_forall in Hall. exact (Hall _ Ht).
Qed.

Lemma states_lookup_total t : 0 <= t <= 37 -> is_Some (states !! t).
Proof.
  intros Ht.
  assert (Hall : Forall (fun t => is_Some (states !! t)) (seqZ 0 38)).
  { apply (bool_decide_unpack _). vm_compute. exact I. }
  rewrite Forall_forall in Hall.
  assert (Hin : t ∈ seqZ 0 38) by (apply elem_of_seqZ; lia).
  exact (Hall t Hin).
Qed.

Lemma state_name_Some t s : states !! t = Some s -> state_name t = s.
Proof. unfold state_name. intros ->. reflexivity. Qed.

Lemma state_name_None t : states !! t = None -> state_name t = "".
Proof. unfold state_name. intros ->. reflexivity. Qed.

(** The table of display names covers the kinds 0 to 37 and no other:
    an event of another kind leaves the last state empty. Different kinds
    have different names, so that a last state that is not empty tells
    the kind of the last event. *)
Theorem state_name_table t1 t2 :
  (state_name t1 <> "" <-> 0 <= t1 <= 37) /\
  (state_name t1 <> "" -> state_name t1 = state_name t2 -> t1 = t2).
Proof.
  destruct (states !! t1) as [s1|] eqn:H1.
  - rewrite (state_name_Some t1 s1 H1).
    destruct (states_lookup_range t1 s1 H1) as [Hr Hne]. split.
    + split; intros _; assumption.
    + intros _ Heq. destruct (states !! t2) as [s2|] eqn:H2.
      * rewrite (state_name_Some t2 s2 H2) in Heq. subst s2.
        apply elem_of_map_to_list in H1, H2.
        eapply NoDup_snd_inj; [|exact H1|exact H2].
        apply (bool_decide_unpack _). vm_compute. exact I.
      * rewrite (state_name_None t2 H2) in Heq. contradiction.
  - rewrite (state_name_None t1 H1). split.
    + split; [intros Hne; contradiction|].
      intros Hr. destruct (states_lookup_total t1 Hr) as [s Hs]. congruence.
    + intros Hne. contradiction.
Qed.

(** * More checks of the embedding on known values *)

Example strings_Replace_indent :
  strings_Replace "a [f.go:1]
b [g.go:2]" newline (newline +:+ tab) = "a [f.go:1]
	b [g.go:2]".
Proof. reflexivity. Qed.

Example strings_Replace_no_overlap : strings_Replace "aaa" "aa" "b" = "ba".
Proof. reflexivity. Qed.

Example strings_Replace_longer : strings_Replace "abcabc" "bc" "xyz" = "axyzaxyz".
Proof. reflexivity. Qed.

(** What [main] prints for a goroutine blocked on a receive. *)
Example main_report_blocked :
  exists h, main_report trace_blocked ∅ = Done "1 main.run [EvGoBlockRecv]:
	main.run [main.go:12]

" h.
Proof. eexists. vm_compute. reflexivity. Qed.

(** On the empty trace [main] prints nothing. *)
Example main_report_empty : main_report [] ∅ = Done "" ∅.
Proof. reflexivity. Qed.
